(** * asebiten: sprite-sheet ingestion and time-driven playback

    A shallow embedding of the Go package [asebiten] and the properties its
    specification states about it.

    - [Machine]: Go's [int]/[int64] arithmetic, slice indexing and the
      outcome of a call (normal return, runtime panic, or fuel exhausted).
    - [Playback]: the [Animation] type with the integer millisecond
      accumulator ([Clone], [NewAnimation], [Restart], [SetTag], [OnEnd],
      [Update]).  Animations, frame tables and callback tables are Go
      reference objects, so they live in a store and are named by address.
    - [Draw]: the later revision of [Animation] that carries the composited
      frame cache ([SetFrame], [SetTag], [Restart], [Frame], [FrameIdx],
      [Clone], [NewFlyweightAnimation], [OnEnd]).
    - [Aseprite]: assembling the tag table from a decoded sprite sheet
      ([LoadAnimation], [LoadSpriteSheet], [loadNoTags], [loadWithTags],
      [reverse], [pingpong], [ImageRect]). *)

From stdpp Require Import gmap strings list fin_maps.
From Stdlib Require Import ZArith Lia.

Local Open Scope Z_scope.

(** ** Machine-level conventions *)

Module Machine.

(** Result of running a piece of Go code: it returns, it panics (index out of
    range, nil dereference, write to a nil map), or the model ran out of fuel
    before the loop finished. *)
Inductive result (A : Type) : Type :=
| Ok (x : A)
| Panic
| Timeout.
Arguments Ok {A} x.
Arguments Panic {A}.
Arguments Timeout {A}.

Definition int64_min : Z := - 2 ^ 63.
Definition int64_max : Z := 2 ^ 63 - 1.

Definition in_int64 (z : Z) : Prop := int64_min <= z <= int64_max.

(** Two's complement wrap-around of a 64-bit signed result. *)
Definition wrap64 (z : Z) : Z := (z + 2 ^ 63) mod 2 ^ 64 - 2 ^ 63.

(** [s[i]] on a slice: [None] stands for the index-out-of-range panic. *)
Definition index {A : Type} (l : list A) (i : Z) : option A :=
  if decide (0 <= i) then l !! Z.to_nat i else None.

(** [len(s)] as a Go [int]. *)
Definition len {A : Type} (l : list A) : Z := Z.of_nat (length l).

End Machine.

Import Machine.

(** ** The playback state machine (integer accumulator) *)

Module Playback.

(** Addresses of heap objects. *)
Abbreviation loc := positive.

(** A Go function value of type [Callback] is a code pointer; [None] is the
    nil function. What a non-nil callback does when called is given by the
    environment [run] below. *)
Abbreviation CallbackId := nat.
Abbreviation Callback := (option CallbackId).

(** [Frame]: [Image] is a pointer to an opaque image ([None] is nil). *)
Record Frame : Type := mkFrame {
  Image : option loc;
  DurationMillis : Z
}.

(** [Animation]. The two maps are references: [None] is the nil map, [Some m]
    the address of a table in the store. [Source] is an opaque interface
    value. *)
Record Animation : Type := mkAnimation {
  paused : bool;
  framesByTagName : option loc;
  currTag : string;
  currFrame : Z;
  accumMillis : Z;
  callbacks : option loc;
  Source : option loc
}.

(** The heap and the package-level variables read or written by the code. *)
Record Store : Type := mkStore {
  animations : gmap loc Animation;
  frameTables : gmap loc (gmap string (list Frame));
  callbackTables : gmap loc (gmap string Callback);
  TotalMillis : Z;
  DeltaMillis : Z
}.

(** *** Field updates *)

Definition set_paused (v : bool) (a : Animation) : Animation :=
  mkAnimation v (framesByTagName a) (currTag a) (currFrame a) (accumMillis a)
              (callbacks a) (Source a).
Definition set_currTag (v : string) (a : Animation) : Animation :=
  mkAnimation (paused a) (framesByTagName a) v (currFrame a) (accumMillis a)
              (callbacks a) (Source a).
Definition set_currFrame (v : Z) (a : Animation) : Animation :=
  mkAnimation (paused a) (framesByTagName a) (currTag a) v (accumMillis a)
              (callbacks a) (Source a).
Definition set_accumMillis (v : Z) (a : Animation) : Animation :=
  mkAnimation (paused a) (framesByTagName a) (currTag a) (currFrame a) v
              (callbacks a) (Source a).

Definition store_animation (p : loc) (a : Animation) (s : Store) : Store :=
  mkStore (<[p := a]> (animations s)) (frameTables s) (callbackTables s)
          (TotalMillis s) (DeltaMillis s).
Definition store_callbackTable (c : loc) (t : gmap string Callback) (s : Store)
  : Store :=
  mkStore (animations s) (frameTables s) (<[c := t]> (callbackTables s))
          (TotalMillis s) (DeltaMillis s).

(** *** Reading through the map references *)

(** [a.framesByTagName[tag]]: a nil map or a missing key reads as the nil
    slice. *)
Definition frames_at (s : Store) (a : Animation) (tag : string) : list Frame :=
  match framesByTagName a with
  | None => []
  | Some m =>
      match frameTables s !! m with
      | Some tbl => default [] (tbl !! tag)
      | None => []
      end
  end.

(** [a.callbacks[tag]]: a nil map or a missing key reads as the nil
    function. *)
Definition callback_at (s : Store) (a : Animation) (tag : string) : Callback :=
  match callbacks a with
  | None => None
  | Some c =>
      match callbackTables s !! c with
      | Some tbl => default None (tbl !! tag)
      | None => None
      end
  end.

(** *** Methods that only touch the receiver's own fields *)

Definition Pause_fields (a : Animation) : Animation := set_paused true a.
Definition Resume_fields (a : Animation) : Animation := set_paused false a.
Definition Toggle_fields (a : Animation) : Animation :=
  set_paused (negb (paused a)) a.
Definition Restart_fields (a : Animation) : Animation := set_currFrame 0 a.
Definition SetTag_fields (tag : string) (a : Animation) : Animation :=
  set_currTag tag
    (if decide (currTag a ≠ tag) then set_currFrame 0 a else a).

(** A method with pointer receiver [p]: dereferencing an address that holds
    no animation is the nil-pointer panic. *)
Definition on_receiver (f : Animation → Animation) (p : loc) (s : Store)
  : result Store :=
  match animations s !! p with
  | Some a => Ok (store_animation p (f a) s)
  | None => Panic
  end.

Definition Pause : loc → Store → result Store := on_receiver Pause_fields.
Definition Resume : loc → Store → result Store := on_receiver Resume_fields.
Definition Toggle : loc → Store → result Store := on_receiver Toggle_fields.
Definition Restart : loc → Store → result Store := on_receiver Restart_fields.
Definition SetTag (tag : string) : loc → Store → result Store :=
  on_receiver (SetTag_fields tag).

(** [OnEnd]: assignment into the callback map; writing to a nil map
    panics. *)
Definition OnEnd (tag : string) (callback : Callback) (p : loc) (s : Store)
  : result Store :=
  match animations s !! p with
  | None => Panic
  | Some a =>
      match callbacks a with
      | None => Panic
      | Some c =>
          match callbackTables s !! c with
          | None => Panic
          | Some tbl => Ok (store_callbackTable c (<[tag := callback]> tbl) s)
          end
      end
  end.

(** *** Allocation *)

(** [NewAnimation]: nil in, nil out; otherwise a fresh animation with a
    fresh, empty callback map. *)
Definition NewAnimation (anim : option loc) (s : Store) : option loc * Store :=
  match anim with
  | None => (None, s)
  | Some m =>
      let c := fresh (dom (callbackTables s)) in
      let p := fresh (dom (animations s)) in
      (Some p,
       store_animation p (mkAnimation false (Some m) "" 0 0 (Some c) None)
         (store_callbackTable c ∅ s))
  end.

(** [maps.Clone]: nil stays nil; otherwise a new map object holding the same
    key/value pairs. *)
Definition maps_Clone (c : option loc) (s : Store) : option loc * Store :=
  match c with
  | None => (None, s)
  | Some c0 =>
      match callbackTables s !! c0 with
      | None => (None, s)
      | Some tbl =>
          let c' := fresh (dom (callbackTables s)) in
          (Some c', store_callbackTable c' tbl s)
      end
  end.

(** [Clone]: the composite literal leaves [accumMillis] and [Source] at their
    zero values. *)
Definition Clone (p : loc) (s : Store) : result (loc * Store) :=
  match animations s !! p with
  | None => Panic
  | Some a =>
      let '(c', s1) := maps_Clone (callbacks a) s in
      let p' := fresh (dom (animations s1)) in
      Ok (p', store_animation p'
                (mkAnimation (paused a) (framesByTagName a) (currTag a)
                             (currFrame a) 0 c' None) s1)
  end.

(** The package-level [Update()]: [elapsed] is what
    [now.Sub(lastTick).Milliseconds()] returned. *)
Definition UpdateClock (elapsed : Z) (s : Store) : Store :=
  mkStore (animations s) (frameTables s) (callbackTables s)
          (wrap64 (TotalMillis s + elapsed)) elapsed.

(** *** [Animation.Update] *)

(** What happens during a call, in order: the frame index is written
    ([Advanced], with the store right after the write), a callback is called
    ([Called], with the store it is handed). *)
Inductive Event : Type :=
| Advanced (s : Store)
| Called (cb : CallbackId) (s : Store).

Section Update.

(** The code behind each callback value: called with the receiver's address,
    it may read and write anything in the store, panic, or fail to return. *)
Variable run : CallbackId → loc → Store → result Store.

(** The two assignments that open the loop body, [fr] being the frame the
    loop test has just read. They are only reached after that read succeeded,
    so the slice is non-empty and [%] has a non-zero divisor. *)
Definition advance_frame (s : Store) (a : Animation) (fr : Frame) : Animation :=
  let a1 := set_accumMillis (wrap64 (accumMillis a - DurationMillis fr)) a in
  set_currFrame
    (Z.rem (wrap64 (currFrame a1 + 1)) (len (frames_at s a1 (currTag a1)))) a1.

(** [a.currFrame != 0 || a.callbacks[a.currTag] == nil] *)
Definition skips_callback (s : Store) (a : Animation) : bool :=
  bool_decide (currFrame a ≠ 0) || bool_decide (callback_at s a (currTag a) = None).

Fixpoint Update_loop (fuel : nat) (p : loc) (s : Store)
  : list Event * result Store :=
  match fuel with
  | O => ([], Timeout)
  | S fuel' =>
      match animations s !! p with
      | None => ([], Panic)
      | Some a =>
          match index (frames_at s a (currTag a)) (currFrame a) with
          | None => ([], Panic)
          | Some fr =>
              if bool_decide (accumMillis a > DurationMillis fr) then
                let a2 := advance_frame s a fr in
                let s2 := store_animation p a2 s in
                if skips_callback s2 a2 then
                  let '(tr, r) := Update_loop fuel' p s2 in
                  (Advanced s2 :: tr, r)
                else
                  match callback_at s2 a2 (currTag a2) with
                  | None => ([Advanced s2], Panic)
                  | Some cb =>
                      match run cb p s2 with
                      | Ok s3 =>
                          let '(tr, r) := Update_loop fuel' p s3 in
                          (Advanced s2 :: Called cb s2 :: tr, r)
                      | Panic => ([Advanced s2; Called cb s2], Panic)
                      | Timeout => ([Advanced s2; Called cb s2], Timeout)
                      end
                  end
              else ([], Ok s)
          end
      end
  end.

Definition Update (fuel : nat) (p : loc) (s : Store)
  : list Event * result Store :=
  match animations s !! p with
  | None => ([], Panic)
  | Some a =>
      if paused a then ([], Ok s)
      else
        Update_loop fuel p
          (store_animation p
             (set_accumMillis (wrap64 (accumMillis a + DeltaMillis s)) a) s)
  end.

End Update.

(** *** The vocabulary of the specification *)

(** The frame table an animation plays from, read through its reference. *)
Definition table_of (s : Store) (a : Animation)
  : option (gmap string (list Frame)) :=
  m ← framesByTagName a; frameTables s !! m.

(** The current tag names a sequence of the table and the frame index lies
    inside it (so the sequence is non-empty). *)
Definition in_bounds (tbl : gmap string (list Frame)) (a : Animation) : Prop :=
  0 <= currFrame a < len (default [] (tbl !! currTag a)).

(** The animation at [p] plays from table [tbl] with a valid tag and index. *)
Definition plays (s : Store) (p : loc) (tbl : gmap string (list Frame))
  (a : Animation) : Prop :=
  animations s !! p = Some a ∧ table_of s a = Some tbl ∧ in_bounds tbl a.

(** Every sequence has a length that is a Go [int]. *)
Definition lengths_fit (tbl : gmap string (list Frame)) : Prop :=
  map_Forall (λ _ frames, len frames <= int64_max) tbl.

(** Every frame of every sequence has a positive duration. *)
Definition durations_positive (tbl : gmap string (list Frame)) : Prop :=
  map_Forall (λ _ frames, Forall (λ fr, 0 < DurationMillis fr) frames) tbl.

#[export] Instance in_bounds_dec tbl a : Decision (in_bounds tbl a).
Proof. unfold in_bounds. apply _. Defined.
#[export] Instance lengths_fit_dec tbl : Decision (lengths_fit tbl).
Proof. unfold lengths_fit. apply _. Defined.
#[export] Instance durations_positive_dec tbl :
  Decision (durations_positive tbl).
Proof. unfold durations_positive. apply _. Defined.

Section Specification.

Variable run : CallbackId → loc → Store → result Store.

(** Callbacks that return, leave the animation they are handed playing a
    valid tag of the same table, and do not add to its accumulated time (nor
    make it negative). A callback that calls [SetTag] with an existing,
    non-empty tag is of this kind. *)
Definition well_behaved (p : loc) (tbl : gmap string (list Frame)) : Prop :=
  ∀ cb s a,
    plays s p tbl a →
    ∃ s' a',
      run cb p s = Ok s' ∧ plays s' p tbl a' ∧
      accumMillis a' <= accumMillis a ∧
      (0 <= accumMillis a → 0 <= accumMillis a').

(** Callbacks that, called on some other animation, do not write the
    animation at [p]. *)
Definition leaves_alone (p : loc) : Prop :=
  ∀ cb q s s',
    q ≠ p → run cb q s = Ok s' → animations s' !! p = animations s !! p.

(** One crossing of a frame boundary: the store right after the loop body
    wrote the frame index, when the loop test held. *)
Definition crossed (p : loc) (s : Store) : option Store :=
  match animations s !! p with
  | None => None
  | Some a =>
      match index (frames_at s a (currTag a)) (currFrame a) with
      | None => None
      | Some fr =>
          if bool_decide (accumMillis a > DurationMillis fr)
          then Some (store_animation p (advance_frame s a fr) s)
          else None
      end
  end.

(** The callback owed after a crossing: the one registered for the current
    tag if the index is back at 0, none otherwise. *)
Definition due_callback (p : loc) (s : Store) : Callback :=
  match animations s !! p with
  | None => None
  | Some a =>
      if decide (currFrame a = 0) then callback_at s a (currTag a) else None
  end.

(** A trace of the loop started in [s] in which every crossing that owes a
    callback is followed at once by exactly one call of that callback on the
    store of the crossing, no other call occurs, and the loop carries on from
    the store the callback left. *)
Fixpoint once_per_wrap (p : loc) (s : Store) (tr : list Event) : Prop :=
  match tr with
  | [] => True
  | Called _ _ :: _ => False
  | Advanced s2 :: rest =>
      crossed p s = Some s2 ∧
      match due_callback p s2 with
      | None => once_per_wrap p s2 rest
      | Some cb =>
          match rest with
          | Called cb' s2' :: rest' =>
              cb' = cb ∧ s2' = s2 ∧
              match run cb p s2 with
              | Ok s3 => once_per_wrap p s3 rest'
              | _ => rest' = []
              end
          | _ => False
          end
      end
  end.

(** The store the loop stands in after a trace: the one its last event left
    (the store of the last crossing, or what the last callback returned), or
    the store it started from when nothing happened. *)
Definition trace_end (p : loc) (s : Store) (tr : list Event) : result Store :=
  match last tr with
  | None => Ok s
  | Some (Advanced s2) => Ok s2
  | Some (Called cb s2) => run cb p s2
  end.

End Specification.

(** The loop test can be evaluated in [s] and fails: the frame under the
    index is there and the accumulated time does not exceed its duration. *)
Definition at_rest (p : loc) (s : Store) : Prop :=
  ∃ a fr,
    animations s !! p = Some a ∧
    index (frames_at s a (currTag a)) (currFrame a) = Some fr ∧
    accumMillis a <= DurationMillis fr.

(** The loop test cannot be evaluated in [s]: there is no animation at [p],
    or no frame under its index. *)
Definition unreadable (p : loc) (s : Store) : Prop :=
  match animations s !! p with
  | None => True
  | Some a => index (frames_at s a (currTag a)) (currFrame a) = None
  end.

(** The store an event was observed in. *)
Definition event_store (e : Event) : Store :=
  match e with Advanced s => s | Called _ s => s end.

(** The number of callback calls in a trace, and the number of crossings
    that owe one. *)
Definition is_call (e : Event) : bool :=
  match e with Called _ _ => true | Advanced _ => false end.
Definition owes_call (p : loc) (e : Event) : bool :=
  match e with
  | Advanced s2 => bool_decide (due_callback p s2 ≠ None)
  | Called _ _ => false
  end.
Definition calls (tr : list Event) : nat := length (filter is_call tr).
Definition crossings (tr : list Event) : nat :=
  length (filter (λ e, negb (is_call e)) tr).
Definition wraps_owing (p : loc) (tr : list Event) : nat :=
  length (filter (owes_call p) tr).

(** The store with the two clock variables set to given values, and an
    animation with [d] more milliseconds accumulated. *)
Definition with_clock (total delta : Z) (s : Store) : Store :=
  mkStore (animations s) (frameTables s) (callbackTables s) total delta.
Definition add_time (d : Z) (a : Animation) : Animation :=
  set_accumMillis (accumMillis a + d) a.

(** Callbacks that do nothing, and callbacks that all call [SetTag]. *)
Definition run_nothing : CallbackId → loc → Store → result Store :=
  λ _ _ s, Ok s.
Definition run_SetTag (target : CallbackId → string)
  : CallbackId → loc → Store → result Store :=
  λ cb p s, SetTag (target cb) p s.

(** Callbacks that are closures over the animation at [target] and call
    [Restart] on it, whichever animation they are called with. *)
Definition run_Restart (target : loc)
  : CallbackId → loc → Store → result Store :=
  λ _ _ s, Restart target s.

End Playback.

(** ** The revision with the composited frame cache: [SetFrame] *)

Module Draw.

Abbreviation loc := positive.

(** [image.Rectangle] *)
Record Rectangle : Type := mkRectangle {
  MinX : Z; MinY : Z; MaxX : Z; MaxY : Z
}.

(** [AniFrame]: [Image] is an interface value holding an image ([None] is
    nil). *)
Record AniFrame : Type := mkAniFrame {
  FrameIdx : Z;
  Image : option loc;
  DurationMillis : Z;
  SourceRect : Rectangle
}.

(** [Animation] of this revision. [elapsedMillis] is a [float64], kept as its
    IEEE-754 bit pattern: no operation modelled here computes with it.
    [Source] is the sprite sheet the animation was loaded from, an opaque
    value here. *)
Record Animation : Type := mkAnimation {
  paused : bool;
  currTag : string;
  currFrame : Z;
  callbacks : option loc;
  FramesByTagName : option loc;
  Source : option loc;
  gpuFrame : option loc;
  needsDraw : bool;
  elapsedMillis : Z
}.

Inductive error : Type := errors_New (text : string).

(** The frame tables of the heap; [SetFrame] only reads them. *)
Abbreviation FrameTables := (gmap loc (gmap string (list AniFrame))).

Definition frames_at (h : FrameTables) (a : Animation) (tag : string)
  : list AniFrame :=
  match FramesByTagName a with
  | None => []
  | Some m =>
      match h !! m with
      | Some tbl => default [] (tbl !! tag)
      | None => []
      end
  end.

(** [SetFrame], as the new contents of [*a] and the returned [error] ([None]
    is nil). *)
Definition SetFrame (h : FrameTables) (idx : Z) (a : Animation)
  : Animation * option error :=
  if bool_decide (idx < 0) || bool_decide (len (frames_at h a (currTag a)) <= idx)
  then (a, Some (errors_New "frame index out of bounds"))
  else
    (mkAnimation (paused a) (currTag a) idx (callbacks a) (FramesByTagName a)
                 (Source a) (gpuFrame a) true (elapsedMillis a),
     None).

(** *** The other methods of this revision

    As for [SetFrame], a method is given by the new contents of its
    receiver. *)

Definition Pause (a : Animation) : Animation :=
  mkAnimation true (currTag a) (currFrame a) (callbacks a) (FramesByTagName a)
              (Source a) (gpuFrame a) (needsDraw a) (elapsedMillis a).

Definition Resume (a : Animation) : Animation :=
  mkAnimation false (currTag a) (currFrame a) (callbacks a) (FramesByTagName a)
              (Source a) (gpuFrame a) (needsDraw a) (elapsedMillis a).

Definition Toggle (a : Animation) : Animation :=
  mkAnimation (negb (paused a)) (currTag a) (currFrame a) (callbacks a)
              (FramesByTagName a) (Source a) (gpuFrame a) (needsDraw a)
              (elapsedMillis a).

Definition Restart (a : Animation) : Animation :=
  mkAnimation (paused a) (currTag a) 0 (callbacks a) (FramesByTagName a)
              (Source a) (gpuFrame a) true (elapsedMillis a).

Definition SetTag (tag : string) (a : Animation) : Animation :=
  mkAnimation (paused a) tag
              (if decide (currTag a ≠ tag) then 0 else currFrame a)
              (callbacks a) (FramesByTagName a) (Source a) (gpuFrame a) true
              (elapsedMillis a).

(** The method [FrameIdx()]; the name [FrameIdx] is the field of
    [AniFrame]. *)
Definition Animation_FrameIdx (a : Animation) : Z := currFrame a.

(** The method [Frame()]: [a.FramesByTagName[a.currTag][a.currFrame]]. *)
Definition Frame (h : FrameTables) (a : Animation) : result AniFrame :=
  match index (frames_at h a (currTag a)) (currFrame a) with
  | Some f => Ok f
  | None => Panic
  end.

(** [NewFlyweightAnimation]: every field but the frame table keeps its zero
    value. *)
Definition NewFlyweightAnimation (source : Animation) : Animation :=
  mkAnimation false "" 0 None (FramesByTagName source) None None false 0.

(** Callback values and the callback tables of the heap, as for the earlier
    revision. *)
Abbreviation Callback := (option nat).
Abbreviation CallbackTables := (gmap loc (gmap string Callback)).

(** [a.callbacks[tag]] *)
Definition callback_at (cbs : CallbackTables) (a : Animation) (tag : string)
  : Callback :=
  match callbacks a with
  | None => None
  | Some c =>
      match cbs !! c with
      | Some tbl => default None (tbl !! tag)
      | None => None
      end
  end.

(** [OnEnd]: assignment into the callback map; writing to a nil map
    panics. *)
Definition OnEnd (tag : string) (callback : Callback) (a : Animation)
  (cbs : CallbackTables) : result CallbackTables :=
  match callbacks a with
  | None => Panic
  | Some c =>
      match cbs !! c with
      | None => Panic
      | Some tbl => Ok (<[c := <[tag := callback]> tbl]> cbs)
      end
  end.

(** [maps.Clone]: nil stays nil; otherwise a new map object holding the same
    key/value pairs. *)
Definition maps_Clone (c : option loc) (cbs : CallbackTables)
  : option loc * CallbackTables :=
  match c with
  | None => (None, cbs)
  | Some c0 =>
      match cbs !! c0 with
      | None => (None, cbs)
      | Some tbl =>
          let c' := fresh (dom cbs) in (Some c', <[c' := tbl]> cbs)
      end
  end.

(** [Clone]: the composite literal names five fields; [Source], [gpuFrame],
    [needsDraw] and [elapsedMillis] keep their zero values. *)
Definition Clone (a : Animation) (cbs : CallbackTables)
  : Animation * CallbackTables :=
  let '(c', cbs1) := maps_Clone (callbacks a) cbs in
  (mkAnimation (paused a) (currTag a) (currFrame a) c' (FramesByTagName a)
               None None false 0,
   cbs1).

(** The frame index names a frame of the current tag. *)
Definition in_range (h : FrameTables) (a : Animation) : Prop :=
  0 <= currFrame a < len (frames_at h a (currTag a)).

End Draw.

(** ** Assembling the tag table from a decoded sprite sheet *)

Module Aseprite.

Import Draw.

Record Size : Type := mkSize { W : Z; H : Z }.

(** [Rect] embeds [Size]. *)
Record Rect : Type := mkRect { X : Z; Y : Z; RectSize : Size }.

(** The JSON [Frame] record; its field [Frame] is called [FrameRect] here. *)
Record Frame : Type := mkFrame {
  FrameRect : Rect;
  Rotated : bool;
  Trimmed : bool;
  SpriteSourceSize : Rect;
  SourceSize : Size;
  Duration : Z
}.

Record FrameTag : Type := mkFrameTag {
  Name : string;
  From : Z;
  To : Z;
  Direction : string;
  Color : string
}.

(** [Meta], without the layer and slice lists, which no loader reads. *)
Record Meta : Type := mkMeta {
  App : string;
  Version : string;
  MetaImage : string;
  Format : string;
  MetaSize : Size;
  Scale : string;
  FrameTags : list FrameTag
}.

(** [SpriteSheet]: [Frames] is a slice of pointers, [None] being a nil
    entry; [SheetImage] is the decoded sheet image. *)
Record SpriteSheet : Type := mkSpriteSheet {
  Frames : list (option Frame);
  SheetMeta : Meta;
  SheetImage : option loc
}.

(** [image.Rect]: the canonical rectangle through two points. *)
Definition image_Rect (x0 y0 x1 y1 : Z) : Rectangle :=
  let '(x0, x1) := if bool_decide (x0 > x1) then (x1, x0) else (x0, x1) in
  let '(y0, y1) := if bool_decide (y0 > y1) then (y1, y0) else (y0, y1) in
  mkRectangle x0 y0 x1 y1.

Definition ImageRect (r : Rect) : Rectangle :=
  image_Rect (X r) (Y r) (wrap64 (X r + W (RectSize r)))
             (wrap64 (Y r + H (RectSize r))).

Definition zero_Rectangle : Rectangle := mkRectangle 0 0 0 0.

(** The images of the heap: each one remembers the image and the region it
    was copied from. Creating an image is taken to succeed. *)
Abbreviation Images := (gmap loc (loc * Rectangle)).

(** [ebiten.NewImageFromImage(sheet.Image.SubImage(r))] *)
Definition NewImageFromSubImage (sheet_image : loc) (r : Rectangle)
  (imgs : Images) : loc * Images :=
  let q := fresh (dom imgs) in (q, <[q := (sheet_image, r)]> imgs).

Abbreviation TagTable := (gmap string (list AniFrame)).

(** [byTagName[tag] = append(byTagName[tag], f)] *)
Definition append_at (tag : string) (f : AniFrame) (t : TagTable) : TagTable :=
  <[tag := default [] (t !! tag) ++ [f]]> t.

(** The body of the [range] loop of [loadNoTags], from entry [idx] on. *)
Fixpoint loadNoTags_from (sheet_image : option loc) (idx : Z)
  (frames : list (option Frame)) (t : TagTable) (imgs : Images)
  : result (TagTable * Images) :=
  match frames with
  | [] => Ok (t, imgs)
  | frame :: rest =>
      match sheet_image, frame with
      | Some si, Some fr =>
          let '(img, imgs1) := NewImageFromSubImage si (ImageRect (FrameRect fr)) imgs in
          loadNoTags_from sheet_image (idx + 1) rest
            (append_at "" (mkAniFrame idx (Some img) (Duration fr) zero_Rectangle) t)
            imgs1
      | _, _ => Panic
      end
  end.

(** [loadNoTags]; its [error] result is always nil. *)
Definition loadNoTags (sheet : SpriteSheet) (imgs : Images)
  : result (TagTable * Images) :=
  loadNoTags_from (SheetImage sheet) 0 (Frames sheet) ∅ imgs.

(** [reverse]: the swaps are done in place; both indices are always in
    range. *)
Definition swap (i j : nat) (frames : list AniFrame) : list AniFrame :=
  match frames !! i, frames !! j with
  | Some x, Some y => <[i := y]> (<[j := x]> frames)
  | _, _ => frames
  end.

Fixpoint reverse_loop (todo : nat) (i : nat) (n : nat) (frames : list AniFrame)
  : list AniFrame :=
  match todo with
  | O => frames
  | S todo' => reverse_loop todo' (S i) n (swap i (n - i) frames)
  end.

Definition reverse (frames : list AniFrame) : list AniFrame :=
  reverse_loop (length frames / 2)%nat 0 (length frames - 1)%nat frames.

(** [pingpong]: [i] runs from [len(frames)-2] down to 1, the bound being
    computed once, before the slice grows. *)
Fixpoint pingpong_loop (i : nat) (frames : list AniFrame) : list AniFrame :=
  match i with
  | O => frames
  | S i' =>
      match frames !! i with
      | Some f => pingpong_loop i' (frames ++ [f])
      | None => frames
      end
  end.

Definition pingpong (frames : list AniFrame) : list AniFrame :=
  pingpong_loop (length frames - 2)%nat frames.

(** The [switch tag.Direction] statement. *)
Definition apply_direction (direction : string) (frames : list AniFrame)
  : list AniFrame :=
  if decide (direction = "reverse") then reverse frames
  else if decide (direction = "pingpong") then pingpong frames
  else if decide (direction = "pingpong_reverse") then reverse (pingpong frames)
  else frames.

(** The loop [for i := tag.From; i <= tag.To; i++] of [loadWithTags]. *)
Fixpoint tag_loop (fuel : nat) (sheet : SpriteSheet) (tag : FrameTag) (i : Z)
  (t : TagTable) (cache : gmap Z loc) (imgs : Images)
  : result (TagTable * gmap Z loc * Images) :=
  match fuel with
  | O => Timeout
  | S fuel' =>
      if bool_decide (i <= To tag) then
        match index (Frames sheet) i with
        | Some (Some fr) =>
            let img_step :=
              match cache !! i with
              | Some img => Some (img, cache, imgs)
              | None =>
                  match SheetImage sheet with
                  | Some si =>
                      let '(img, imgs1) :=
                        NewImageFromSubImage si (ImageRect (FrameRect fr)) imgs in
                      Some (img, <[i := img]> cache, imgs1)
                  | None => None
                  end
              end in
            match img_step with
            | Some (img, cache1, imgs1) =>
                tag_loop fuel' sheet tag (wrap64 (i + 1))
                  (append_at (Name tag)
                     (mkAniFrame i (Some img) (Duration fr) zero_Rectangle) t)
                  cache1 imgs1
            | None => Panic
            end
        | _ => Panic
        end
      else Ok (t, cache, imgs)
  end.

(** One round of the outer loop: collect the frames of the tag, then apply
    its direction. The [switch] assigns to the map only in its three
    cases. *)
Definition load_tag (sheet : SpriteSheet) (tag : FrameTag)
  (t : TagTable) (cache : gmap Z loc) (imgs : Images)
  : result (TagTable * gmap Z loc * Images) :=
  match tag_loop (S (length (Frames sheet))) sheet tag (From tag) t cache imgs with
  | Ok (t1, cache1, imgs1) =>
      let d := Direction tag in
      let t2 :=
        if bool_decide (d = "reverse" ∨ d = "pingpong" ∨ d = "pingpong_reverse")
        then <[Name tag := apply_direction d (default [] (t1 !! Name tag))]> t1
        else t1 in
      Ok (t2, cache1, imgs1)
  | Panic => Panic
  | Timeout => Timeout
  end.

Fixpoint load_tags (sheet : SpriteSheet) (tags : list FrameTag)
  (t : TagTable) (cache : gmap Z loc) (imgs : Images)
  : result (TagTable * gmap Z loc * Images) :=
  match tags with
  | [] => Ok (t, cache, imgs)
  | tag :: rest =>
      match load_tag sheet tag t cache imgs with
      | Ok (t1, cache1, imgs1) => load_tags sheet rest t1 cache1 imgs1
      | Panic => Panic
      | Timeout => Timeout
      end
  end.

(** What a Go function with results [(T, error)] returned. *)
Inductive returned (A : Type) : Type :=
| Value (x : A)
| Error (e : error).
Arguments Value {A} x.
Arguments Error {A} e.

(** [loadWithTags]. [loadNoTags] never hands back an error, so the early
    [return nil, err] is never taken. *)
Definition loadWithTags (sheet : SpriteSheet) (imgs : Images)
  : result (returned TagTable * Images) :=
  match loadNoTags sheet imgs with
  | Ok (byTagName, imgs1) =>
      match load_tags sheet (FrameTags (SheetMeta sheet)) byTagName ∅ imgs1 with
      | Ok (t, _, imgs2) => Ok (Value t, imgs2)
      | Panic => Panic
      | Timeout => Timeout
      end
  | Panic => Panic
  | Timeout => Timeout
  end.

(** The part of [LoadAnimation] that follows a successful
    [LoadSpriteSheet]: the tag table handed to [NewAnimation]. *)
Definition LoadAnimation_table (sheet : SpriteSheet) (imgs : Images)
  : result (returned TagTable * Images) :=
  if bool_decide (length (FrameTags (SheetMeta sheet)) = 0%nat) then
    match loadNoTags sheet imgs with
    | Ok (t, imgs1) => Ok (Value t, imgs1)
    | Panic => Panic
    | Timeout => Timeout
    end
  else loadWithTags sheet imgs.

(** A tag whose loop runs at least once and whose range leaves the frame
    list. *)
Definition out_of_range (sheet : SpriteSheet) (tag : FrameTag) : Prop :=
  From tag <= To tag ∧ (From tag < 0 ∨ len (Frames sheet) <= To tag).

(** *** The vocabulary of the tag table's specification *)


(** A tag whose range, if not empty, lies inside the frame list. *)
Definition within (sheet : SpriteSheet) (tag : FrameTag) : Prop :=
  From tag <= To tag → 0 <= From tag ∧ To tag < len (Frames sheet).



(** Every cached image is the copy of the region of its own sheet frame, and
    no image is cached for two indices. *)
Definition cache_ok (sheet : SpriteSheet) (si : loc) (cache : gmap Z loc)
  (imgs : Images) : Prop :=
  (∀ k img, cache !! k = Some img →
     ∃ fr, index (Frames sheet) k = Some (Some fr) ∧
           imgs !! img = Some (si, ImageRect (FrameRect fr))) ∧
  (∀ k1 k2 img, cache !! k1 = Some img → cache !! k2 = Some img → k1 = k2).





#[global] Instance within_dec sheet tag : Decision (within sheet tag).
Proof. unfold within. apply _. Defined.

End Aseprite.

(** ** Concrete inputs used in the examples below *)

Module Examples.

(** A sheet with a single frame and one tag whose range runs past it. *)
Definition one_frame : Aseprite.Frame :=
  Aseprite.mkFrame (Aseprite.mkRect 0 0 (Aseprite.mkSize 16 16)) false false
    (Aseprite.mkRect 0 0 (Aseprite.mkSize 16 16)) (Aseprite.mkSize 16 16) 100.

Definition sheet_with_tag (tag : Aseprite.FrameTag) : Aseprite.SpriteSheet :=
  Aseprite.mkSpriteSheet [Some one_frame]
    (Aseprite.mkMeta "aseprite" "1.3" "sheet.png" "RGBA8888"
       (Aseprite.mkSize 16 16) "1" [tag])
    (Some 1%positive).

Definition tag_past_end : Aseprite.FrameTag :=
  Aseprite.mkFrameTag "walk" 0 5 "forward" "#000000ff".

Definition tag_backwards : Aseprite.FrameTag :=
  Aseprite.mkFrameTag "walk" 7 3 "forward" "#000000ff".

(** A sheet with four frames and one tag over all of them for each
    direction. *)
Definition four_frames : Aseprite.SpriteSheet :=
  Aseprite.mkSpriteSheet
    [Some one_frame; Some one_frame; Some one_frame; Some one_frame]
    (Aseprite.mkMeta "aseprite" "1.3" "sheet.png" "RGBA8888"
       (Aseprite.mkSize 64 16) "1"
       [Aseprite.mkFrameTag "fw" 0 3 "forward" "#000000ff";
        Aseprite.mkFrameTag "rv" 0 3 "reverse" "#000000ff";
        Aseprite.mkFrameTag "pp" 0 3 "pingpong" "#000000ff";
        Aseprite.mkFrameTag "ppr" 0 3 "pingpong_reverse" "#000000ff"])
    (Some 1%positive).

(** The original frame indices of the sequence stored under a tag. *)
Definition indices_at (tag : string) (t : gmap string (list Draw.AniFrame))
  : list Z :=
  Draw.FrameIdx <$> default [] (t !! tag).

(** Playback stores: one animation at address 1, playing from the frame
    table at address 1, with its callback table at address 1. *)
Definition ms (d : Z) : Playback.Frame := Playback.mkFrame None d.

Definition playing (tag : string) (frame accum : Z) : Playback.Animation :=
  Playback.mkAnimation false (Some 1%positive) tag frame accum
    (Some 1%positive) None.

Definition player (tbl : gmap string (list Playback.Frame))
  (cbs : gmap string (option nat)) (tag : string) (frame accum delta : Z)
  : Playback.Store :=
  Playback.mkStore {[ 1%positive := playing tag frame accum ]}
    {[ 1%positive := tbl ]} {[ 1%positive := cbs ]} 0 delta.

(** Three frames of 10 ms with an end callback, 65 ms elapsed. *)
Definition three_frames : gmap string (list Playback.Frame) :=
  {[ "" := [ms 10; ms 10; ms 10] ]}.
Definition looping : Playback.Store :=
  player three_frames {[ "" := Some 7%nat ]} "" 0 0 65.

(** One frame of 100 ms, exactly 100 ms elapsed. *)
Definition one_long_frame : gmap string (list Playback.Frame) :=
  {[ "" := [ms 100] ]}.
Definition on_the_boundary : Playback.Store :=
  player one_long_frame ∅ "" 0 0 100.

(** One frame of 0 ms, 1 ms elapsed. *)
Definition one_empty_frame : gmap string (list Playback.Frame) :=
  {[ "" := [ms 0] ]}.
Definition stalled : Playback.Store := player one_empty_frame ∅ "" 0 0 1.

(** A short frame followed by a long one; the store holds only the frame
    table, the animation is still to be created. *)
Definition short_then_long : gmap string (list Playback.Frame) :=
  {[ "" := [ms 10; ms 100] ]}.
Definition before_creation : Playback.Store :=
  Playback.mkStore ∅ {[ 1%positive := short_then_long ]} ∅ 0 60.

(** Tag "a" is one frame of 10 ms, tag "b" two frames of 100 ms; the end
    callback of "a" switches to "b". 250 ms elapsed. *)
Definition two_tags : gmap string (list Playback.Frame) :=
  {[ "a" := [ms 10]; "b" := [ms 100; ms 100] ]}.
Definition to_b : nat → string := λ _, "b".
Definition switching : Playback.Store :=
  player two_tags {[ "a" := Some 0%nat ]} "a" 0 0 250.

(** The same store once [Update] has added the 250 ms, and once the callback
    has switched the tag after the first crossing. *)
Definition switching_started : Playback.Store :=
  player two_tags {[ "a" := Some 0%nat ]} "a" 0 250 250.
Definition switched_animation : Playback.Animation :=
  Playback.mkAnimation false (Some 1%positive) "b" 0 (wrap64 (250 - 10))
    (Some 1%positive) None.
Definition switched : Playback.Store :=
  Playback.store_animation 1 switched_animation switching_started.

(** An animation resting on its second frame with 5 ms accumulated and no
    time elapsed since. *)
Definition resting : Playback.Store := player short_then_long ∅ "" 1 5 0.

(** The three-frame animation before any time has passed, and the same
    store with given clock readings. *)
Definition clocked (frame accum total delta : Z) : Playback.Store :=
  Playback.mkStore {[ 1%positive := playing "" frame accum ]}
    {[ 1%positive := three_frames ]}
    {[ 1%positive := {[ "" := Some 7%nat ]} ]} total delta.
Definition idle : Playback.Store := clocked 0 0 0 0.


(** A frame table for the later revision: two frames under the default tag,
    one under "walk"; and an animation showing the second default frame. *)
Definition drawn_frames : Draw.FrameTables :=
  {[ 1%positive :=
       {[ "" := [Draw.mkAniFrame 0 (Some 1%positive) 100 (Draw.mkRectangle 0 0 0 0);
                 Draw.mkAniFrame 1 (Some 2%positive) 100 (Draw.mkRectangle 0 0 0 0)];
          "walk" := [Draw.mkAniFrame 1 (Some 2%positive) 100
                       (Draw.mkRectangle 0 0 0 0)] ]} ]}.

Definition drawn : Draw.Animation :=
  Draw.mkAnimation false "" 1 (Some 1%positive) (Some 1%positive) None None
    false 0.

(** The source of a clone, resting on the second of three frames of 10 ms,
    with an end callback and 25 ms elapsed; and a zero-value animation, which
    has no maps at all. *)
Definition source_on_frame_1 : Playback.Store :=
  player three_frames {[ "" := Some 7%nat ]} "" 1 0 25.
Definition zero_value : Playback.Store :=
  Playback.mkStore
    {[ 1%positive := Playback.mkAnimation false None "" 0 0 None None ]}
    ∅ ∅ 0 0.

(** The three-frame animation on its last frame, 15 ms elapsed. *)
Definition about_to_end : Playback.Store :=
  player three_frames {[ "" := Some 7%nat ]} "" 2 0 15.

End Examples.

(** ** Facts about the machine conventions *)

Section MachineFacts.

Lemma wrap64_id (z : Z) : in_int64 z → wrap64 z = z.
Proof.
  unfold in_int64, int64_min, int64_max, wrap64. intros Hz.
  rewrite Z.mod_small; lia.
Qed.

Lemma wrap64_in_int64 (z : Z) : in_int64 (wrap64 z).
Proof.
  unfold in_int64, int64_min, int64_max, wrap64.
  pose proof (Z.mod_pos_bound (z + 2 ^ 63) (2 ^ 64)). lia.
Qed.

Lemma index_Some {A : Type} (l : list A) (i : Z) (x : A) :
  index l i = Some x ↔ 0 <= i ∧ l !! Z.to_nat i = Some x.
Proof.
  unfold index. case_decide; [tauto|].
  split; [discriminate | tauto].
Qed.

Lemma index_in_range {A : Type} (l : list A) (i : Z) :
  is_Some (index l i) ↔ 0 <= i < len l.
Proof.
  unfold index, len. case_decide.
  - rewrite lookup_lt_is_Some. lia.
  - split; [intros [x Hx]; discriminate | lia].
Qed.

Lemma index_None {A : Type} (l : list A) (i : Z) :
  index l i = None ↔ ¬ (0 <= i < len l).
Proof.
  rewrite <- index_in_range, eq_None_not_Some. tauto.
Qed.

End MachineFacts.

(** ** [SetFrame] *)

Module DrawFacts.

Import Draw.

(** C9. [SetFrame idx] hands back the out-of-bounds error exactly when [idx]
    lies outside [0, len) of the current tag's frames, and then the animation
    is left as it was; otherwise no error is returned, the frame index is
    [idx], and the only other field written is the redraw flag. *)
Theorem SetFrame_range_checked (h : FrameTables) (idx : Z) (a : Animation) :
  let n := len (frames_at h a (currTag a)) in
  (snd (SetFrame h idx a) ≠ None ↔ ¬ (0 <= idx < n)) ∧
  (¬ (0 <= idx < n) →
     SetFrame h idx a = (a, Some (errors_New "frame index out of bounds"))) ∧
  (0 <= idx < n →
     snd (SetFrame h idx a) = None ∧
     currFrame (fst (SetFrame h idx a)) = idx ∧
     fst (SetFrame h idx a)
       = mkAnimation (paused a) (currTag a) idx (callbacks a)
           (FramesByTagName a) (Source a) (gpuFrame a) true (elapsedMillis a)).
Proof.
  intros n. subst n. unfold SetFrame.
  set (k := len (frames_at h a (currTag a))).
  destruct (decide (0 <= idx < k)) as [Hin|Hout].
  - rewrite (bool_decide_eq_false_2 (idx < 0)) by lia.
    rewrite (bool_decide_eq_false_2 (k <= idx)) by lia. simpl.
    split; [split; [congruence | tauto] |].
    split; [tauto | auto].
  - assert (bool_decide (idx < 0) || bool_decide (k <= idx) = true) as ->.
    { apply orb_true_iff. rewrite !bool_decide_eq_true. lia. }
    simpl. split; [split; [tauto | discriminate] |].
    split; [auto | tauto].
Qed.

Lemma Frame_in_range h a : (∃ f, Frame h a = Ok f) ↔ in_range h a.
Proof.
  unfold Frame, in_range. rewrite <- index_in_range.
  destruct (index _ _) as [f|]; split.
  - eauto.
  - intros _. eauto.
  - intros [f Hf]. discriminate.
  - intros [f Hf]. discriminate.
Qed.

(** X17. As long as the frame index names a frame of the current tag,
    [Frame()] returns a frame (it panics otherwise), and this is kept by
    [Pause], [Resume], [Toggle], [Restart], [SetFrame] with any index, failed
    or not, [Clone], and by [SetTag] to a tag that has frames. *)
Theorem frame_index_stays_in_range h cbs a :
  in_range h a →
  (∃ f, Frame h a = Ok f) ∧
  in_range h (Pause a) ∧ in_range h (Resume a) ∧ in_range h (Toggle a) ∧
  in_range h (Restart a) ∧
  (∀ idx, in_range h (fst (SetFrame h idx a))) ∧
  (∀ tag, frames_at h a tag ≠ [] → in_range h (SetTag tag a)) ∧
  in_range h (fst (Clone a cbs)).
Proof.
  intros Hin. split; [now apply Frame_in_range|].
  repeat split; try exact (proj1 Hin); try exact (proj2 Hin).
  - reflexivity.
  - unfold in_range in *. change (0 < len (frames_at h a (currTag a))). lia.
  - unfold SetFrame. destruct (_ || _) eqn:Hchk; simpl; [apply Hin|].
    apply orb_false_iff in Hchk as [Hlo _].
    apply bool_decide_eq_false in Hlo. lia.
  - unfold SetFrame. destruct (_ || _) eqn:Hchk; simpl; [apply Hin|].
    apply orb_false_iff in Hchk as [_ Hhi].
    apply bool_decide_eq_false in Hhi.
    change (idx < len (frames_at h a (currTag a))). lia.
  - simpl. case_decide; [reflexivity | apply Hin].
  - unfold in_range in *.
    change (frames_at h (SetTag tag a) (currTag (SetTag tag a)))
      with (frames_at h a tag).
    simpl. case_decide as Htag.
    + destruct (frames_at h a tag); [contradiction|]. unfold len. simpl. lia.
    + subst tag. apply Hin.
  - unfold Clone. destruct (maps_Clone _ _). apply Hin.
  - unfold Clone. destruct (maps_Clone _ _). apply Hin.
Qed.

Lemma frame_index_stays_in_range_witness :
  (∃ f, Frame Examples.drawn_frames Examples.drawn = Ok f) ∧
  in_range Examples.drawn_frames (SetTag "walk" Examples.drawn).
Proof.
  destruct (frame_index_stays_in_range Examples.drawn_frames ∅ Examples.drawn)
    as (Hframe & _ & _ & _ & _ & _ & Htag & _).
  - split; [vm_compute; discriminate | vm_compute; reflexivity].
  - split; [exact Hframe|]. apply Htag. vm_compute. discriminate.
Defined.

(** X18. [SetFrame] and the two getters: when [SetFrame idx] returns no
    error, [FrameIdx()] is [idx] and [Frame()] returns the record at position
    [idx] of the current tag; when it returns the error, both getters give
    what they gave before. *)
Theorem SetFrame_then_Frame h idx a :
  (snd (SetFrame h idx a) = None →
   Animation_FrameIdx (fst (SetFrame h idx a)) = idx ∧
   ∃ f, index (frames_at h a (currTag a)) idx = Some f ∧
        Frame h (fst (SetFrame h idx a)) = Ok f) ∧
  (snd (SetFrame h idx a) ≠ None →
   Animation_FrameIdx (fst (SetFrame h idx a)) = Animation_FrameIdx a ∧
   Frame h (fst (SetFrame h idx a)) = Frame h a).
Proof.
  unfold SetFrame. destruct (_ || _) eqn:Hchk; simpl.
  - split; [discriminate | auto].
  - split; [|intros H; now contradiction H]. intros _.
    split; [reflexivity|].
    apply orb_false_iff in Hchk as [Hlo Hhi].
    apply bool_decide_eq_false in Hlo, Hhi.
    destruct (proj2 (index_in_range (frames_at h a (currTag a)) idx))
      as [f Hf]; [lia|].
    exists f. split; [exact Hf|]. unfold Frame. simpl.
    change (index (frames_at h a (currTag a)) idx = Some f) in Hf.
    unfold frames_at in *. simpl. now rewrite Hf.
Qed.

(** X19. [SetTag] does not look the tag up: after [SetTag] to a tag that has
    no frames the animation is on that tag, [Frame()] panics, [SetFrame]
    refuses every index, and [Restart] does not help. *)
Theorem SetTag_accepts_any_tag h a tag :
  frames_at h a tag = [] →
  currTag (SetTag tag a) = tag ∧
  Frame h (SetTag tag a) = Panic ∧
  Frame h (Restart (SetTag tag a)) = Panic ∧
  ∀ idx,
    SetFrame h idx (SetTag tag a)
      = (SetTag tag a, Some (errors_New "frame index out of bounds")).
Proof.
  intros Hnone. split; [reflexivity|].
  assert (frames_at h (SetTag tag a) tag = []) as Hnone' by exact Hnone.
  split; [|split].
  - unfold Frame. change (currTag (SetTag tag a)) with tag.
    rewrite Hnone'. unfold index. case_decide; [|reflexivity].
    now rewrite lookup_nil.
  - unfold Frame.
    change (frames_at h (Restart (SetTag tag a))
              (currTag (Restart (SetTag tag a))))
      with (frames_at h a tag).
    rewrite Hnone. reflexivity.
  - intros idx. unfold SetFrame.
    change (currTag (SetTag tag a)) with tag. rewrite Hnone'.
    assert (bool_decide (idx < 0) || bool_decide (len ([] : list AniFrame) <= idx)
            = true) as ->; [|reflexivity].
    apply orb_true_iff. rewrite !bool_decide_eq_true. unfold len. simpl. lia.
Qed.

Lemma SetTag_accepts_any_tag_witness :
  Frame Examples.drawn_frames Examples.drawn
    = Ok (mkAniFrame 1 (Some 2%positive) 100 (mkRectangle 0 0 0 0)) ∧
  Frame Examples.drawn_frames (SetTag "run" Examples.drawn) = Panic.
Proof.
  split; [reflexivity|].
  apply (SetTag_accepts_any_tag Examples.drawn_frames Examples.drawn "run").
  reflexivity.
Defined.

(** X20. An animation made by [NewFlyweightAnimation] shares the frame table
    of its source and starts on the default tag at frame 0, running; but its
    callback map is nil, so [OnEnd] panics on it, and on every clone of
    it. *)
Theorem flyweight_has_no_callback_map source cbs tag callback :
  let a := NewFlyweightAnimation source in
  FramesByTagName a = FramesByTagName source ∧
  currTag a = "" ∧ currFrame a = 0 ∧ paused a = false ∧
  (∀ h, frames_at h a "" = frames_at h source "") ∧
  OnEnd tag callback a cbs = Panic ∧
  snd (Clone a cbs) = cbs ∧
  OnEnd tag callback (fst (Clone a cbs)) (snd (Clone a cbs)) = Panic.
Proof. repeat split. Qed.


End DrawFacts.

(** ** The sequence builder and the tag table *)

Module AsepriteFacts.

Import Draw Aseprite.

Section Builder.

Local Open Scope nat_scope.

Lemma rev_lookup {A : Type} (l : list A) (i : nat) :
  i < length l → rev l !! i = l !! (length l - S i).
Proof.
  intros Hi. rewrite rev_alt. exact (list.reverse_lookup l i Hi).
Qed.

Lemma length_swap (i j : nat) (frames : list AniFrame) :
  length (swap i j frames) = length frames.
Proof.
  unfold swap. destruct (frames !! i), (frames !! j); trivial.
  now rewrite !length_insert.
Qed.

Lemma swap_lookup (i j k : nat) (frames : list AniFrame) :
  i < length frames → j < length frames →
  swap i j frames !! k =
    if decide (k = i) then frames !! j
    else if decide (k = j) then frames !! i
    else frames !! k.
Proof.
  intros Hi Hj. unfold swap.
  destruct (lookup_lt_is_Some_2 _ _ Hi) as [x Hx].
  destruct (lookup_lt_is_Some_2 _ _ Hj) as [y Hy].
  rewrite Hx, Hy.
  destruct (decide (k = i)) as [->|Hki].
  - rewrite list_lookup_insert_eq by (rewrite length_insert; lia). congruence.
  - rewrite list_lookup_insert_ne by congruence.
    destruct (decide (k = j)) as [->|Hkj].
    + rewrite list_lookup_insert_eq by lia. congruence.
    + now rewrite list_lookup_insert_ne by congruence.
Qed.

(** After [todo] more swaps starting at [i], the positions [i .. i+todo-1]
    and their mirror images have been exchanged. *)
Lemma reverse_loop_lookup (todo i : nat) (frames : list AniFrame) (k : nat) :
  i + todo ≤ length frames / 2 →
  reverse_loop todo i (length frames - 1) frames !! k =
    if decide ((i ≤ k < i + todo) ∨
               (length frames - (i + todo) ≤ k < length frames - i))
    then frames !! (length frames - 1 - k)
    else frames !! k.
Proof.
  revert i frames. induction todo as [|todo IH]; intros i frames Hle.
  - simpl. case_decide; [lia | reflexivity].
  - pose proof (Nat.Div0.mul_div_le (length frames) 2) as Hhalf.
    simpl. rewrite <- (length_swap i (length frames - 1 - i) frames) at 1.
    rewrite IH by (rewrite length_swap; lia).
    rewrite !length_swap.
    rewrite !swap_lookup by lia.
    repeat case_decide; try lia; try reflexivity; f_equal; lia.
Qed.

Lemma length_reverse_loop (todo i n : nat) (frames : list AniFrame) :
  length (reverse_loop todo i n frames) = length frames.
Proof.
  revert i frames. induction todo as [|todo IH]; intros i frames; simpl.
  - reflexivity.
  - now rewrite IH, length_swap.
Qed.

(** The in-place swap loop computes the reversed list. *)
Lemma reverse_is_rev (frames : list AniFrame) : reverse frames = rev frames.
Proof.
  apply list_eq. intros k. unfold reverse.
  pose proof (Nat.Div0.mul_div_le (length frames) 2) as Hlo.
  rewrite reverse_loop_lookup by lia.
  destruct (decide (k < length frames)) as [Hk|Hk].
  - rewrite rev_lookup by lia.
    case_decide.
    + f_equal. lia.
    + f_equal. assert (length frames < 2 * S (length frames / 2)).
      { pose proof (Nat.div_mod_eq (length frames) 2).
        pose proof (Nat.mod_upper_bound (length frames) 2). lia. }
      lia.
  - rewrite (lookup_ge_None_2 (rev frames)) by (rewrite length_rev; lia).
    case_decide; [lia|]. apply lookup_ge_None_2. lia.
Qed.

(** Each round of [pingpong] appends one interior frame, walking back from
    position [i] to position 1. *)
Lemma pingpong_loop_spec (i : nat) (frames extra : list AniFrame) :
  i < length frames →
  pingpong_loop i (frames ++ extra)
    = frames ++ extra ++ rev (take i (drop 1 frames)).
Proof.
  revert extra. induction i as [|i IH]; intros extra Hi.
  - simpl. now rewrite app_nil_r.
  - simpl. rewrite lookup_app_l by lia.
    destruct (lookup_lt_is_Some_2 frames (S i) Hi) as [f Hf]. rewrite Hf.
    rewrite <- app_assoc, IH by lia.
    assert (drop 1 frames !! i = Some f) as Hd by now rewrite lookup_drop.
    rewrite (take_S_r _ _ _ Hd), rev_app_distr. simpl.
    now rewrite <- !app_assoc.
Qed.

(** [pingpong] yields the frames followed by the interior frames in reverse:
    [f0 .. fn, f(n-1) .. f1]. *)
Lemma pingpong_spec (frames : list AniFrame) :
  pingpong frames
    = frames ++ rev (take (length frames - 2) (drop 1 frames)).
Proof.
  unfold pingpong. destruct (decide (length frames < 2)) as [Hs|Hs].
  - replace (length frames - 2) with 0 by lia. simpl. now rewrite app_nil_r.
  - rewrite <- (app_nil_r frames) at 2.
    rewrite pingpong_loop_spec by lia. reflexivity.
Qed.

End Builder.

(** C2. On four frames [A,B,C,D] the builder yields [A,B,C,D,C,B] for
    "pingpong" and [D,C,B,A] for "reverse"; in general "pingpong" yields the
    frames followed by the interior frames in reverse. For "pingpong_reverse"
    it reverses the ping-pong expansion, which gives [B,C,D,C,B,A] and not
    [D,C,B,A,B,C], the ping-pong expansion of the reversed frames. The same
    is seen on the tag table loaded from a four-frame sheet. *)
Theorem direction_transforms (A B C D : AniFrame) :
  apply_direction "pingpong" [A; B; C; D] = [A; B; C; D; C; B] ∧
  apply_direction "reverse" [A; B; C; D] = [D; C; B; A] ∧
  (∀ frames,
     apply_direction "pingpong" frames
       = frames ++ rev (take (length frames - 2) (drop 1 frames))) ∧
  (∀ frames, apply_direction "reverse" frames = rev frames) ∧
  (∀ frames,
     apply_direction "pingpong_reverse" frames
       = rev (frames ++ rev (take (length frames - 2) (drop 1 frames)))) ∧
  apply_direction "pingpong_reverse" [A; B; C; D] = [B; C; D; C; B; A] ∧
  pingpong (reverse [A; B; C; D]) = [D; C; B; A; B; C] ∧
  (B ≠ D →
     apply_direction "pingpong_reverse" [A; B; C; D] ≠ [D; C; B; A; B; C]) ∧
  (∃ t imgs,
     loadWithTags Examples.four_frames ∅ = Ok (Value t, imgs) ∧
     Examples.indices_at "" t = [0; 1; 2; 3] ∧
     Examples.indices_at "fw" t = [0; 1; 2; 3] ∧
     Examples.indices_at "rv" t = [3; 2; 1; 0] ∧
     Examples.indices_at "pp" t = [0; 1; 2; 3; 2; 1] ∧
     Examples.indices_at "ppr" t = [1; 2; 3; 2; 1; 0]).
Proof.
  assert (∀ frames, apply_direction "pingpong" frames = pingpong frames)
    as Hpp by reflexivity.
  assert (∀ frames, apply_direction "reverse" frames = reverse frames)
    as Hrv by reflexivity.
  assert (∀ frames,
            apply_direction "pingpong_reverse" frames = reverse (pingpong frames))
    as Hpr by reflexivity.
  repeat split.
  - intros frames. rewrite Hpp. apply pingpong_spec.
  - intros frames. rewrite Hrv. apply reverse_is_rev.
  - intros frames. now rewrite Hpr, reverse_is_rev, pingpong_spec.
  - intros Hne Heq. rewrite Hpr in Heq. cbv in Heq. congruence.
  - eexists _, _. split; [vm_compute; reflexivity|].
    repeat split; vm_compute; reflexivity.
Qed.

Section Ingestion.

Lemma loadNoTags_from_no_timeout si idx frames t imgs :
  loadNoTags_from si idx frames t imgs ≠ Timeout.
Proof.
  revert idx t imgs. induction frames as [|fr rest IH]; intros idx t imgs; simpl.
  - discriminate.
  - destruct si as [si|]; [|discriminate].
    destruct fr as [fr|]; [|discriminate]. apply IH.
Qed.

(** The tag loop stops within [len(Frames) + 1] rounds: every round that does
    not panic moves [i] one step closer to the end of the frame list. *)
Lemma tag_loop_no_timeout fuel sheet tag i t cache imgs :
  len (Frames sheet) <= int64_max →
  (0 < fuel)%nat ∧ (0 <= i → len (Frames sheet) - i < Z.of_nat fuel) →
  tag_loop fuel sheet tag i t cache imgs ≠ Timeout.
Proof.
  intros Hfit. revert i t cache imgs.
  induction fuel as [|fuel IH]; intros i t cache imgs Hi.
  - lia.
  - simpl. case_bool_decide as Hto; [|discriminate].
    destruct (index (Frames sheet) i) as [[fr|]|] eqn:Hidx; try discriminate.
    assert (is_Some (index (Frames sheet) i)) as Hin by eauto.
    apply index_in_range in Hin.
    assert (wrap64 (i + 1) = i + 1) as ->.
    { apply wrap64_id. unfold in_int64, int64_min, int64_max in *. lia. }
    destruct (cache !! i) as [img|].
    + apply IH. lia.
    + destruct (SheetImage sheet) as [si|]; [|discriminate].
      simpl. apply IH. lia.
Qed.

(** A tag with [From <= To] whose range leaves the frame list makes the loop
    index out of range. *)
Lemma tag_loop_out_of_range fuel sheet tag i t cache imgs :
  len (Frames sheet) <= int64_max →
  i <= To tag →
  i < 0 ∨ len (Frames sheet) <= To tag →
  (0 < fuel)%nat ∧ (0 <= i → len (Frames sheet) - i < Z.of_nat fuel) →
  tag_loop fuel sheet tag i t cache imgs = Panic.
Proof.
  intros Hfit. revert i t cache imgs.
  induction fuel as [|fuel IH]; intros i t cache imgs Hto Hbad Hi.
  - lia.
  - simpl. rewrite bool_decide_eq_true_2 by exact Hto.
    destruct (index (Frames sheet) i) as [[fr|]|] eqn:Hidx; try reflexivity.
    assert (is_Some (index (Frames sheet) i)) as Hin by eauto.
    apply index_in_range in Hin.
    assert (wrap64 (i + 1) = i + 1) as ->.
    { apply wrap64_id. unfold in_int64, int64_min, int64_max in *. lia. }
    destruct (cache !! i) as [img|].
    + apply IH; lia.
    + destruct (SheetImage sheet) as [si|]; [|reflexivity].
      simpl. apply IH; lia.
Qed.

Lemma enough_fuel (sheet : SpriteSheet) (i : Z) :
  (0 < S (length (Frames sheet)))%nat ∧
  (0 <= i → len (Frames sheet) - i < Z.of_nat (S (length (Frames sheet)))).
Proof. unfold len. lia. Qed.

Lemma load_tag_no_timeout sheet tag t cache imgs :
  len (Frames sheet) <= int64_max →
  load_tag sheet tag t cache imgs ≠ Timeout.
Proof.
  intros Hfit. unfold load_tag.
  pose proof (tag_loop_no_timeout (S (length (Frames sheet))) sheet tag
                (From tag) t cache imgs Hfit (enough_fuel sheet (From tag))) as H.
  destruct (tag_loop _ _ _ _ _ _ _) as [[[t1 c1] i1]| |]; congruence.
Qed.

Lemma load_tag_out_of_range sheet tag t cache imgs :
  len (Frames sheet) <= int64_max →
  out_of_range sheet tag →
  load_tag sheet tag t cache imgs = Panic.
Proof.
  intros Hfit [Hle Hbad]. unfold load_tag.
  rewrite tag_loop_out_of_range; auto using enough_fuel.
Qed.

Lemma load_tags_out_of_range sheet tags tag t cache imgs :
  len (Frames sheet) <= int64_max →
  tag ∈ tags →
  out_of_range sheet tag →
  load_tags sheet tags t cache imgs = Panic.
Proof.
  intros Hfit Hin Hbad. revert t cache imgs.
  induction Hin as [tag rest|tag other rest Hin IH]; intros t cache imgs; simpl.
  - now rewrite load_tag_out_of_range.
  - pose proof (load_tag_no_timeout sheet other t cache imgs Hfit) as Hnt.
    destruct (load_tag sheet other t cache imgs) as [[[t1 c1] i1]| |].
    + apply IH. exact Hbad.
    + reflexivity.
    + congruence.
Qed.

Lemma loadWithTags_never_errors sheet imgs e imgs' :
  loadWithTags sheet imgs ≠ Ok (Error e, imgs').
Proof.
  unfold loadWithTags.
  destruct (loadNoTags sheet imgs) as [[t0 i0]| |]; try discriminate.
  destruct (load_tags _ _ _ _ _) as [[[t1 c1] i1]| |]; discriminate.
Qed.

(** A tag with [From > To] runs the loop zero times: no frame is read and
    the tag goes unnoticed. *)
Lemma load_tag_backwards sheet tag t cache imgs :
  To tag < From tag →
  load_tag sheet tag t cache imgs
    = Ok (if bool_decide (Direction tag = "reverse" ∨
                          Direction tag = "pingpong" ∨
                          Direction tag = "pingpong_reverse")
          then <[Name tag := apply_direction (Direction tag)
                               (default [] (t !! Name tag))]> t
          else t,
          cache, imgs).
Proof.
  intros Hlt. unfold load_tag. simpl.
  now rewrite bool_decide_eq_false_2 by lia.
Qed.

(** C4, as the code has it. A declared tag with [From <= To] whose range
    leaves the frame list ([From < 0] or [To >= len(Frames)]) is not reported
    through the [error] result: the assembly panics on the frame index, so no
    tag table, partial or complete, is handed back. A declared tag with
    [From > To] is not examined at all: its round reads no frame, only
    applies the direction to whatever is already stored under its name, and
    succeeds. *)
Theorem loadWithTags_out_of_range_panics sheet imgs tag :
  len (Frames sheet) <= int64_max →
  tag ∈ FrameTags (SheetMeta sheet) →
  (From tag <= To tag →
   From tag < 0 ∨ len (Frames sheet) <= To tag →
   loadWithTags sheet imgs = Panic ∧ LoadAnimation_table sheet imgs = Panic) ∧
  (To tag < From tag →
   ∀ t cache imgs0,
     load_tag sheet tag t cache imgs0
       = Ok (if bool_decide (Direction tag = "reverse" ∨
                             Direction tag = "pingpong" ∨
                             Direction tag = "pingpong_reverse")
             then <[Name tag := apply_direction (Direction tag)
                                  (default [] (t !! Name tag))]> t
             else t,
             cache, imgs0)).
Proof.
  intros Hfit Hin. split.
  - intros Hle Hbad.
    assert (loadWithTags sheet imgs = Panic) as Hp.
    { unfold loadWithTags, loadNoTags.
      pose proof (loadNoTags_from_no_timeout (SheetImage sheet) 0
                    (Frames sheet) ∅ imgs) as Hnt.
      destruct (loadNoTags_from _ _ _ _ _) as [[t0 i0]| |];
        [|reflexivity|congruence].
      rewrite (load_tags_out_of_range sheet _ tag); try assumption.
      - reflexivity.
      - split; assumption. }
    split; [exact Hp|].
    unfold LoadAnimation_table. case_bool_decide as Hnil; [|exact Hp].
    destruct (FrameTags (SheetMeta sheet)); [|discriminate].
    now apply not_elem_of_nil in Hin.
  - intros Hlt t cache imgs0. now apply load_tag_backwards.
Qed.

Lemma loadWithTags_out_of_range_panics_witness :
  loadWithTags (Examples.sheet_with_tag Examples.tag_past_end) ∅ = Panic ∧
  LoadAnimation_table (Examples.sheet_with_tag Examples.tag_past_end) ∅ = Panic.
Proof.
  apply (loadWithTags_out_of_range_panics
           (Examples.sheet_with_tag Examples.tag_past_end) ∅
           Examples.tag_past_end).
  - vm_compute. discriminate.
  - simpl. left.
  - simpl. lia.
  - right. vm_compute. discriminate.
Defined.

(** C4 as stated does not hold: a tag [0..5] over a one-frame sheet ends in
    a panic, not in a returned error, and a tag [7..3] over the same sheet is
    accepted and a tag table is returned. *)
Lemma out_of_range_tag_not_reported :
  loadWithTags (Examples.sheet_with_tag Examples.tag_past_end) ∅ = Panic ∧
  (∀ e imgs',
     loadWithTags (Examples.sheet_with_tag Examples.tag_past_end) ∅
       ≠ Ok (Error e, imgs')) ∧
  ∃ t imgs',
    loadWithTags (Examples.sheet_with_tag Examples.tag_backwards) ∅
      = Ok (Value t, imgs') ∧
    t !! "walk" = None ∧ length (default [] (t !! "")) = 1%nat.
Proof.
  split; [vm_compute; reflexivity|].
  split; [intros e imgs'; apply loadWithTags_never_errors|].
  eexists _, _. split; [vm_compute; reflexivity|].
  split; vm_compute; reflexivity.
Qed.

End Ingestion.

Section TagTable.




Lemma cache_ok_hit sheet si cache imgs i img :
  cache_ok sheet si cache imgs → cache !! i = Some img →
  is_Some (imgs !! img).
Proof. intros [H _] Hc. destruct (H i img Hc) as (fr & _ & Himg). eauto. Qed.








Lemma elem_of_apply_direction (x : AniFrame) d frames :
  x ∈ apply_direction d frames ↔ x ∈ frames.
Proof.
  assert (∀ l : list AniFrame, x ∈ rev l ↔ x ∈ l) as Hrev.
  { intros l. rewrite !list_elem_of_In. symmetry. apply in_rev. }
  assert (x ∈ pingpong frames ↔ x ∈ frames) as Hpp.
  { rewrite pingpong_spec, elem_of_app, Hrev, elem_of_take. split.
    - intros [H|(i & Hi & _)]; [exact H|].
      rewrite lookup_drop in Hi. eapply list_elem_of_lookup_2; exact Hi.
    - now left. }
  unfold apply_direction. repeat case_decide; rewrite ?reverse_is_rev, ?Hrev;
    try exact Hpp; reflexivity.
Qed.





(** X14. No direction invents or loses a frame record, and the lengths are
    fixed: "pingpong" and "pingpong_reverse" turn [n] records into
    [n + (n - 2)] (so one or two records stay as they are), every other
    direction keeps the length. *)
Theorem directions_keep_the_frames (d : string) (frames : list AniFrame) :
  (∀ f, f ∈ apply_direction d frames ↔ f ∈ frames) ∧
  length (apply_direction d frames)
    = (if decide (d = "pingpong" ∨ d = "pingpong_reverse")
       then length frames + (length frames - 2)
       else length frames)%nat.
Proof.
  split; [intros f; apply elem_of_apply_direction|].
  assert (length (pingpong frames)
            = (length frames + (length frames - 2))%nat) as Hpp.
  { rewrite pingpong_spec, length_app, length_rev, length_take, length_drop.
    lia. }
  unfold apply_direction.
  repeat case_decide; subst; rewrite ?reverse_is_rev, ?length_rev;
    try reflexivity; try exact Hpp;
    try discriminate; exfalso; intuition discriminate.
Qed.

(** X15. "pingpong_reverse" gives the "pingpong" sequence started one record
    later: the two loop through the same cycle of frames, in the same
    order. *)
Theorem pingpong_reverse_rotates_pingpong (frames : list AniFrame) :
  apply_direction "pingpong_reverse" frames
    = rotate 1 (apply_direction "pingpong" frames).
Proof.
  change (reverse (pingpong frames) = rotate 1 (pingpong frames)).
  rewrite reverse_is_rev, pingpong_spec.
  destruct frames as [|a rest]; [reflexivity|].
  destruct rest as [|z m _] using rev_ind; [reflexivity|].
  assert (take (length (a :: m ++ [z]) - 2) (drop 1 (a :: m ++ [z])) = m)
    as ->.
  { simpl. rewrite length_app. simpl.
    replace (length m + 1 - 1)%nat with (length m) by lia.
    apply take_app_length. }
  unfold rotate.
  assert (1 `mod` length ((a :: m ++ [z]) ++ rev m) = 1)%nat as ->.
  { apply Nat.mod_small. simpl. rewrite !length_app. simpl. lia. }
  simpl. rewrite !rev_app_distr, rev_involutive. simpl.
  rewrite drop_0, take_0. now rewrite <- !app_assoc.
Qed.



(** X22. The region [ImageRect] computes for a frame is always well formed
    (its minimum is not beyond its maximum), whatever the numbers in the
    sheet. For a size that is not negative it is the rectangle from [(X, Y)]
    to [(X + W, Y + H)]; a negative width or height is not refused but gives
    the mirrored rectangle, which ends at [(X, Y)]. *)
Theorem ImageRect_is_well_formed (r : Rect) :
  let q := ImageRect r in
  let w := W (RectSize r) in
  let h := H (RectSize r) in
  MinX q <= MaxX q ∧ MinY q <= MaxY q ∧
  (in_int64 (X r + w) →
   (0 <= w → MinX q = X r ∧ MaxX q = X r + w) ∧
   (w < 0 → MinX q = X r + w ∧ MaxX q = X r)) ∧
  (in_int64 (Y r + h) →
   (0 <= h → MinY q = Y r ∧ MaxY q = Y r + h) ∧
   (h < 0 → MinY q = Y r + h ∧ MaxY q = Y r)).
Proof.
  cbv zeta. unfold ImageRect, image_Rect.
  split; [|split; [|split]].
  - repeat case_bool_decide; simpl; lia.
  - repeat case_bool_decide; simpl; lia.
  - intros Hfit. rewrite (wrap64_id _ Hfit).
    repeat case_bool_decide; simpl; lia.
  - intros Hfit. rewrite (wrap64_id (Y r + _) Hfit).
    repeat case_bool_decide; simpl; lia.
Qed.

End TagTable.







End AsepriteFacts.

(** ** The playback state machine *)

Module PlaybackFacts.

Import Playback.

Section Loop.

Variable run : CallbackId → loc → Store → result Store.

Lemma lookup_store_animation p a s :
  animations (store_animation p a s) !! p = Some a.
Proof. unfold store_animation. simpl. apply lookup_insert_eq. Qed.

Lemma lookup_store_animation_ne p q a s :
  p ≠ q → animations (store_animation p a s) !! q = animations s !! q.
Proof. intros. unfold store_animation. simpl. now apply lookup_insert_ne. Qed.

Lemma store_animation_twice p a b s :
  store_animation p a (store_animation p b s) = store_animation p a s.
Proof. unfold store_animation. simpl. now rewrite insert_insert_eq. Qed.

Lemma store_animation_same p a s :
  animations s !! p = Some a → store_animation p a s = s.
Proof.
  intros H. destruct s. unfold store_animation. simpl in *.
  now rewrite insert_id.
Qed.

(** The loop body skips the callback exactly when none is owed. *)
Lemma skips_callback_due p a s :
  animations s !! p = Some a →
  skips_callback s a = true ↔ due_callback p s = None.
Proof.
  intros Ha. unfold skips_callback, due_callback. rewrite Ha.
  rewrite orb_true_iff, !bool_decide_eq_true.
  destruct (decide (currFrame a = 0)); split; intros H; auto; tauto.
Qed.

(** One round of the loop, spelled out. *)
Lemma Update_loop_S fuel p s :
  Update_loop run (S fuel) p s =
    match animations s !! p with
    | None => ([], Panic)
    | Some a =>
        match index (frames_at s a (currTag a)) (currFrame a) with
        | None => ([], Panic)
        | Some fr =>
            if bool_decide (accumMillis a > DurationMillis fr) then
              let a2 := advance_frame s a fr in
              let s2 := store_animation p a2 s in
              if skips_callback s2 a2 then
                (Advanced s2 :: fst (Update_loop run fuel p s2),
                 snd (Update_loop run fuel p s2))
              else
                match callback_at s2 a2 (currTag a2) with
                | None => ([Advanced s2], Panic)
                | Some cb =>
                    match run cb p s2 with
                    | Ok s3 =>
                        (Advanced s2 :: Called cb s2
                           :: fst (Update_loop run fuel p s3),
                         snd (Update_loop run fuel p s3))
                    | Panic => ([Advanced s2; Called cb s2], Panic)
                    | Timeout => ([Advanced s2; Called cb s2], Timeout)
                    end
                end
            else ([], Ok s)
        end
    end.
Proof.
  simpl. destruct (animations s !! p) as [a|]; [|reflexivity].
  destruct (index _ _) as [fr|]; [|reflexivity].
  destruct (bool_decide _); [|reflexivity].
  destruct (skips_callback _ _).
  - now destruct (Update_loop run fuel p _).
  - destruct (callback_at _ _ _) as [cb|]; [|reflexivity].
    destruct (run cb p _) as [s3| |]; try reflexivity.
    now destruct (Update_loop run fuel p s3).
Qed.

Lemma once_per_wrap_loop fuel p s :
  once_per_wrap run p s (fst (Update_loop run fuel p s)).
Proof.
  revert s. induction fuel as [|fuel IH]; intros s; [exact I|].
  rewrite Update_loop_S.
  destruct (animations s !! p) as [a|] eqn:Ha; [|exact I].
  destruct (index (frames_at s a (currTag a)) (currFrame a)) as [fr|] eqn:Hfr;
    [|exact I].
  case_bool_decide as Hgt; [|exact I].
  cbv zeta.
  set (a2 := advance_frame s a fr). set (s2 := store_animation p a2 s).
  assert (crossed p s = Some s2) as Hcross.
  { unfold crossed. rewrite Ha, Hfr. now rewrite bool_decide_eq_true_2. }
  assert (animations s2 !! p = Some a2) as Ha2
    by apply lookup_store_animation.
  pose proof (skips_callback_due p a2 s2 Ha2) as Hskip.
  destruct (skips_callback s2 a2) eqn:Hs.
  - cbn [fst once_per_wrap]. split; [exact Hcross|].
    rewrite (proj1 Hskip eq_refl). apply IH.
  - assert (due_callback p s2 = callback_at s2 a2 (currTag a2)) as Hdue.
    { unfold due_callback. rewrite Ha2.
      unfold skips_callback in Hs. apply orb_false_iff in Hs as [Hz _].
      apply bool_decide_eq_false in Hz.
      destruct (decide (currFrame a2 = 0)); [reflexivity | tauto]. }
    destruct (callback_at s2 a2 (currTag a2)) as [cb|] eqn:Hcb.
    + destruct (run cb p s2) as [s3| |] eqn:Hrun;
        cbn [fst once_per_wrap]; (split; [exact Hcross|]); rewrite Hdue;
        (split; [reflexivity|]); (split; [reflexivity|]); rewrite Hrun;
        [apply IH | reflexivity | reflexivity].
    + destruct Hskip as [_ Hskip]. specialize (Hskip Hdue). discriminate.
Qed.

(** In such a trace the calls are as many as the crossings that owe one. *)
Lemma once_per_wrap_count p s tr :
  once_per_wrap run p s tr → calls tr = wraps_owing p tr.
Proof.
  revert s. induction tr as [tr IH] using (induction_ltof1 _ (@length Event)).
  unfold ltof in IH. intros s Htr.
  destruct tr as [|[s2|cb s2] rest]; [reflexivity| |destruct Htr].
  simpl in Htr. destruct Htr as [_ Htr].
  unfold calls, wraps_owing in *. rewrite !filter_cons. simpl.
  destruct (due_callback p s2) as [cb|] eqn:Hdue.
  - rewrite bool_decide_eq_true_2 by discriminate. 
    destruct rest as [|[s2'|cb' s2'] rest']; try contradiction.
    destruct Htr as (-> & -> & Htr).
    rewrite !filter_cons. simpl.
    destruct (run cb p s2) as [s3| |].
    + rewrite (IH rest' ltac:(simpl; lia) s3 Htr). reflexivity.
    + subst rest'. reflexivity.
    + subst rest'. reflexivity.
  - rewrite bool_decide_eq_false_2 by tauto. simpl.
    apply (IH rest ltac:(simpl; lia) s2 Htr).
Qed.

Lemma frames_at_table s a tbl tag :
  table_of s a = Some tbl → frames_at s a tag = default [] (tbl !! tag).
Proof.
  unfold table_of, frames_at. destruct (framesByTagName a) as [m|]; simpl.
  - intros ->. reflexivity.
  - discriminate.
Qed.

Lemma frames_at_set_accumMillis s v a tag :
  frames_at s (set_accumMillis v a) tag = frames_at s a tag.
Proof. reflexivity. Qed.

Lemma in_bounds_sequence tbl a :
  in_bounds tbl a →
  ∃ frames fr,
    tbl !! currTag a = Some frames ∧ index frames (currFrame a) = Some fr.
Proof.
  unfold in_bounds. intros Hb.
  destruct (tbl !! currTag a) as [frames|] eqn:Ht; simpl in Hb.
  - destruct (proj2 (index_in_range frames (currFrame a)) Hb) as [fr Hfr].
    eauto.
  - unfold len in Hb. simpl in Hb. lia.
Qed.

(** Crossing a frame boundary keeps the index inside the sequence. *)
Lemma crossing_plays s p tbl a fr :
  lengths_fit tbl → plays s p tbl a →
  plays (store_animation p (advance_frame s a fr) s) p tbl
        (advance_frame s a fr).
Proof.
  intros Hfit (Ha & Htbl & Hb).
  split; [apply lookup_store_animation|]. split; [exact Htbl|].
  unfold in_bounds, advance_frame in *. simpl.
  rewrite (frames_at_table s _ tbl) by exact Htbl. simpl.
  destruct (tbl !! currTag a) as [frames|] eqn:Ht; simpl in *;
    [|unfold len in Hb; simpl in Hb; lia].
  specialize (Hfit _ _ Ht).
  rewrite wrap64_id
    by (unfold in_int64, int64_min, int64_max in *; lia).
  apply Z.rem_bound_pos; lia.
Qed.

(** With positive durations and well-behaved callbacks the loop returns once
    the fuel exceeds the accumulated time, and it returns with the
    accumulated time no larger than the duration of the frame it stopped
    on. *)
Lemma Update_loop_returns tbl p :
  lengths_fit tbl → durations_positive tbl → well_behaved run p tbl →
  ∀ fuel s a,
    plays s p tbl a →
    accumMillis a <= int64_max →
    (0 < fuel)%nat → accumMillis a < Z.of_nat fuel →
    ∃ s' a' fr,
      snd (Update_loop run fuel p s) = Ok s' ∧ plays s' p tbl a' ∧
      index (frames_at s' a' (currTag a')) (currFrame a') = Some fr ∧
      accumMillis a' <= DurationMillis fr ∧
      accumMillis a' <= accumMillis a ∧
      (0 <= accumMillis a → 0 <= accumMillis a').
Proof.
  intros Hfit Hpos Hwb.
  induction fuel as [|fuel IH]; intros s a Hplay Hmax Hfuel Hlt; [lia|].
  rewrite Update_loop_S.
  pose proof Hplay as (Ha & Htbl & Hb).
  destruct (in_bounds_sequence tbl a Hb) as (frames & fr & Hseq & Hfr).
  rewrite Ha, (frames_at_table s a tbl _ Htbl), Hseq.
  change (default [] (Some frames)) with frames. rewrite Hfr.
  assert (0 < DurationMillis fr) as Hdur.
  { apply index_Some in Hfr as [_ Hfr].
    exact (Forall_lookup_1 _ _ _ _ (Hpos _ _ Hseq) Hfr). }
  case_bool_decide as Hgt.
  - cbv zeta. set (a2 := advance_frame s a fr).
    set (s2 := store_animation p a2 s).
    assert (plays s2 p tbl a2) as Hplay2 by now apply crossing_plays.
    assert (accumMillis a2 = accumMillis a - DurationMillis fr) as Hacc2.
    { unfold a2, advance_frame. simpl. apply wrap64_id.
      unfold in_int64, int64_min, int64_max in *. lia. }
    assert (∀ s3 a3,
              plays s3 p tbl a3 → accumMillis a3 <= accumMillis a2 →
              (0 <= accumMillis a2 → 0 <= accumMillis a3) →
              ∃ s' a' fr',
                snd (Update_loop run fuel p s3) = Ok s' ∧ plays s' p tbl a' ∧
                index (frames_at s' a' (currTag a')) (currFrame a') = Some fr' ∧
                accumMillis a' <= DurationMillis fr' ∧
                accumMillis a' <= accumMillis a ∧
                (0 <= accumMillis a → 0 <= accumMillis a')) as Hnext.
    { intros s3 a3 Hplay3 Hle3 Hnn3.
      destruct (IH s3 a3 Hplay3) as (s' & a' & fr' & Hr & Hp' & Hi' & Hd' & Hle' & Hnn');
        [lia | lia | lia |].
      exists s', a', fr'.
      split; [exact Hr|]. split; [exact Hp'|]. split; [exact Hi'|].
      split; [exact Hd'|]. split; lia. }
    destruct (skips_callback s2 a2) eqn:Hs.
    + simpl. apply (Hnext s2 a2 Hplay2); lia.
    + destruct (callback_at s2 a2 (currTag a2)) as [cb|] eqn:Hcb.
      * destruct (Hwb cb s2 a2 Hplay2) as (s3 & a3 & Hrun & Hplay3 & Hle3 & Hnn3).
        rewrite Hrun. simpl. apply (Hnext s3 a3 Hplay3); lia.
      * unfold skips_callback in Hs. rewrite Hcb in Hs.
        rewrite (bool_decide_eq_true_2 (None = None)) in Hs by reflexivity.
        now rewrite orb_true_r in Hs.
  - simpl. exists s, a, fr.
    split; [reflexivity|]. split; [exact Hplay|].
    split; [now rewrite (frames_at_table s a tbl _ Htbl), Hseq|].
    split; lia.
Qed.

(** What a crossing does to the animation: the tag is kept, the duration of
    the crossed frame is taken off the accumulated time, and the index moves
    to the next frame, or back to 0 when the crossed frame was the last of
    its sequence. *)
Lemma advance_frame_spec tbl s a frames fr :
  lengths_fit tbl → table_of s a = Some tbl →
  tbl !! currTag a = Some frames → 0 <= currFrame a < len frames →
  advance_frame s a fr
    = mkAnimation (paused a) (framesByTagName a) (currTag a)
        (if decide (currFrame a + 1 = len frames) then 0
         else currFrame a + 1)
        (wrap64 (accumMillis a - DurationMillis fr))
        (callbacks a) (Source a).
Proof.
  intros Hfit Htbl Hseq Hb. unfold advance_frame.
  change (currTag (set_accumMillis _ a)) with (currTag a).
  change (currFrame (set_accumMillis _ a)) with (currFrame a).
  rewrite frames_at_set_accumMillis, (frames_at_table s a tbl _ Htbl), Hseq.
  change (default [] (Some frames)) with frames.
  pose proof (Hfit _ _ Hseq) as Hlen. simpl in Hlen.
  rewrite wrap64_id by (unfold in_int64, int64_min, int64_max in *; lia).
  unfold set_currFrame, set_accumMillis. simpl. f_equal.
  destruct (decide (currFrame a + 1 = len frames)) as [->|Hmid].
  - apply Z.rem_same. lia.
  - apply Z.rem_small. lia.
Qed.

Lemma crossed_spec tbl p s a s2 :
  lengths_fit tbl → plays s p tbl a → crossed p s = Some s2 →
  ∃ fr,
    index (frames_at s a (currTag a)) (currFrame a) = Some fr ∧
    accumMillis a > DurationMillis fr ∧
    s2 = store_animation p
           (mkAnimation (paused a) (framesByTagName a) (currTag a)
              (if decide (currFrame a + 1 = len (frames_at s a (currTag a)))
               then 0 else currFrame a + 1)
              (wrap64 (accumMillis a - DurationMillis fr))
              (callbacks a) (Source a)) s.
Proof.
  intros Hfit (Ha & Htbl & Hb) Hcross. unfold crossed in Hcross.
  rewrite Ha in Hcross.
  destruct (index _ _) as [fr|] eqn:Hfr; [|discriminate].
  case_bool_decide as Hgt; [|discriminate]. injection Hcross as <-.
  exists fr. split; [reflexivity|]. split; [exact Hgt|].
  destruct (in_bounds_sequence tbl a Hb) as (frames & _ & Hseq & _).
  unfold in_bounds in Hb. rewrite Hseq in Hb.
  rewrite (frames_at_table s a tbl _ Htbl), Hseq.
  now rewrite (advance_frame_spec tbl s a frames fr).
Qed.

(** Frames of one duration [D] and callbacks that leave the store alone:
    the number of calls made by the loop is the number of times the end of
    the sequence is passed while the accumulated time is worked off. *)
Lemma Update_loop_call_count tbl p D cb :
  lengths_fit tbl → 0 < D → (∀ c q s0, run c q s0 = Ok s0) →
  ∀ fuel s a frames,
    plays s p tbl a → tbl !! currTag a = Some frames →
    Forall (λ fr, DurationMillis fr = D) frames →
    callback_at s a (currTag a) = Some cb →
    accumMillis a <= int64_max →
    (0 < fuel)%nat → accumMillis a < Z.of_nat fuel →
    Z.of_nat (calls (fst (Update_loop run fuel p s)))
      = (currFrame a + Z.max 0 ((accumMillis a - 1) / D)) / len frames.
Proof.
  intros Hfit HD Hrun.
  induction fuel as [|fuel IH];
    intros s a frames Hplay Hseq Hall Hcb Hmax Hfuel Hlt; [lia|].
  rewrite Update_loop_S.
  pose proof Hplay as (Ha & Htbl & Hb).
  unfold in_bounds in Hb. rewrite Hseq in Hb. simpl in Hb.
  destruct (proj2 (index_in_range frames (currFrame a)) Hb) as [fr Hfr].
  rewrite Ha, (frames_at_table s a tbl _ Htbl), Hseq.
  change (default [] (Some frames)) with frames. rewrite Hfr.
  assert (DurationMillis fr = D) as Hdur.
  { apply index_Some in Hfr as [_ Hfr].
    exact (Forall_lookup_1 _ _ _ _ Hall Hfr). }
  rewrite Hdur.
  case_bool_decide as Hgt.
  - cbv zeta.
    pose proof (crossing_plays s p tbl a fr Hfit Hplay) as Hplay2.
    rewrite (advance_frame_spec tbl s a frames fr Hfit Htbl Hseq Hb) in *.
    rewrite Hdur in *.
    set (a2 := mkAnimation _ _ _ _ _ _ _) in *.
    set (s2 := store_animation p a2 s) in *.
    assert (accumMillis a2 = accumMillis a - D) as Hacc2.
    { unfold a2. simpl. apply wrap64_id.
      unfold in_int64, int64_min, int64_max in *. lia. }
    assert (currFrame a2 =
              if decide (currFrame a + 1 = len frames) then 0
              else currFrame a + 1) as Hcf2 by reflexivity.
    assert ((accumMillis a - D - 1) / D = (accumMillis a - 1) / D - 1)
      as Hj.
    { replace (accumMillis a - D - 1) with (accumMillis a - 1 + (-1) * D)
        by lia.
      rewrite Z.div_add by lia. lia. }
    assert (1 <= (accumMillis a - 1) / D) as Hj1
      by (apply Z.div_le_lower_bound; lia).
    assert (Z.of_nat (calls (fst (Update_loop run fuel p s2)))
              = (currFrame a2 + ((accumMillis a - 1) / D - 1)) / len frames)
      as Hrest.
    { rewrite (IH s2 a2 frames Hplay2 Hseq Hall Hcb) by lia.
      rewrite Hacc2, Hj. do 2 f_equal. lia. }
    rewrite Z.max_r by lia.
    unfold skips_callback.
    change (callback_at s2 a2 (currTag a2))
      with (callback_at s a (currTag a)).
    rewrite Hcb, (bool_decide_eq_false_2 (Some cb = None)) by discriminate.
    rewrite orb_false_r.
    destruct (decide (currFrame a + 1 = len frames)) as [Hlast|Hmid].
    + rewrite bool_decide_eq_false_2 by lia.
      rewrite Hrun. cbn [fst]. unfold calls in *.
      rewrite !filter_cons. simpl. rewrite Nat2Z.inj_succ, Hrest, Hcf2.
      replace (currFrame a + (accumMillis a - 1) / D)
        with ((accumMillis a - 1) / D - 1 + 1 * len frames) by lia.
      rewrite Z.div_add by lia. rewrite Z.add_0_l. lia.
    + rewrite bool_decide_eq_true_2 by lia.
      cbn [fst]. unfold calls in *. rewrite filter_cons. simpl.
      rewrite Hrest, Hcf2. f_equal. lia.
  - cbn [fst]. unfold calls. simpl.
    assert ((accumMillis a - 1) / D <= 0) as Hj0.
    { assert ((accumMillis a - 1) / D < 1); [|lia].
      apply Z.div_lt_upper_bound; lia. }
    rewrite Z.max_l by lia. rewrite Z.add_0_r.
    symmetry. apply Z.div_small. lia.
Qed.

(** The same count for a whole call of [Update]. *)
Lemma Update_call_count tbl p D cb s a frames :
  lengths_fit tbl → 0 < D → (∀ c q s0, run c q s0 = Ok s0) →
  plays s p tbl a → paused a = false →
  tbl !! currTag a = Some frames →
  Forall (λ fr, DurationMillis fr = D) frames →
  callback_at s a (currTag a) = Some cb →
  0 <= accumMillis a → 0 <= DeltaMillis s →
  accumMillis a + DeltaMillis s <= int64_max →
  ∀ fuel,
    accumMillis a + DeltaMillis s < Z.of_nat fuel →
    Z.of_nat (calls (fst (Update run fuel p s)))
      = (currFrame a
         + Z.max 0 ((accumMillis a + DeltaMillis s - 1) / D)) / len frames.
Proof.
  intros Hfit HD Hrun Hplay Hp Hseq Hall Hcb Hacc Hdelta Hsum fuel Hfuel.
  pose proof Hplay as (Ha & Htbl & Hb).
  unfold Update. rewrite Ha, Hp.
  set (a1 := set_accumMillis (wrap64 (accumMillis a + DeltaMillis s)) a).
  assert (accumMillis a1 = accumMillis a + DeltaMillis s) as Hacc1.
  { unfold a1. simpl. apply wrap64_id.
    unfold in_int64, int64_min, int64_max in *. lia. }
  rewrite (Update_loop_call_count tbl p D cb Hfit HD Hrun fuel _ a1 frames).
  - now rewrite Hacc1.
  - split; [apply lookup_store_animation|]. split; assumption.
  - exact Hseq.
  - exact Hall.
  - exact Hcb.
  - lia.
  - lia.
  - lia.
Qed.

(** An animation at the start of a sequence of [N] frames of [D] ms each, with
    nothing accumulated: after [k*D*N + r] ms, [0 <= r < D*N], the end
    callback has been called [k] times, or [k - 1] times when [r = 0] (the
    last boundary is then reached but not exceeded). *)
Lemma Update_call_count_rounds tbl p D cb s a frames k r :
  lengths_fit tbl → 0 < D → (∀ c q s0, run c q s0 = Ok s0) →
  plays s p tbl a → paused a = false →
  tbl !! currTag a = Some frames →
  Forall (λ fr, DurationMillis fr = D) frames →
  callback_at s a (currTag a) = Some cb →
  currFrame a = 0 → accumMillis a = 0 →
  0 <= k → 0 <= r < D * len frames →
  DeltaMillis s = k * D * len frames + r →
  DeltaMillis s <= int64_max →
  ∀ fuel,
    DeltaMillis s < Z.of_nat fuel →
    Z.of_nat (calls (fst (Update run fuel p s)))
      = if decide (r = 0) then Z.max 0 (k - 1) else k.
Proof.
  intros Hfit HD Hrun Hplay Hp Hseq Hall Hcb Hcf Hacc Hk Hr Hdelta Hmax
         fuel Hfuel.
  pose proof Hplay as (_ & _ & Hb). unfold in_bounds in Hb.
  rewrite Hseq in Hb. simpl in Hb.
  set (N := len frames) in *.
  assert (0 < N) as HN by lia.
  rewrite (Update_call_count tbl p D cb s a frames) by (auto; nia).
  fold N. rewrite Hcf, Hacc, Hdelta. rewrite !Z.add_0_l.
  destruct (decide (r = 0)) as [->|Hr0].
  - destruct (decide (k = 0)) as [->|Hk0].
    + replace (0 * D * N + 0 - 1) with (-1) by lia.
      assert (-1 / D < 0) by (apply Z.div_lt_upper_bound; lia).
      rewrite !Z.max_l by lia. apply Z.div_small. lia.
    + replace (k * D * N + 0 - 1) with ((D - 1) + (k * N - 1) * D) by lia.
      rewrite Z.div_add by lia. rewrite (Z.div_small (D - 1) D) by lia.
      rewrite Z.max_r by nia. rewrite Z.max_r by lia.
      replace (0 + (k * N - 1)) with ((N - 1) + (k - 1) * N) by lia.
      rewrite Z.div_add by lia. rewrite (Z.div_small (N - 1) N) by lia.
      lia.
  - replace (k * D * N + r - 1) with ((r - 1) + (k * N) * D) by lia.
    rewrite Z.div_add by lia.
    assert (0 <= (r - 1) / D < N) as Hq.
    { split; [apply Z.div_pos; lia|].
      apply Z.div_lt_upper_bound; lia. }
    rewrite Z.max_r by nia.
    rewrite Z.div_add by lia. rewrite (Z.div_small _ N) by exact Hq. lia.
Qed.

(** What a trace ends in, event by event. *)
Lemma trace_end_Advanced p s s2 rest :
  trace_end run p s (Advanced s2 :: rest) = trace_end run p s2 rest.
Proof.
  unfold trace_end. destruct rest as [|e rest]; [reflexivity|].
  rewrite last_cons_cons.
  destruct (last (e :: rest)) as [[]|] eqn:Hlast; try reflexivity.
  apply last_None in Hlast. discriminate.
Qed.

Lemma trace_end_Called p s cb s2 s3 rest :
  run cb p s2 = Ok s3 →
  trace_end run p s (Called cb s2 :: rest) = trace_end run p s3 rest.
Proof.
  intros Hrun. unfold trace_end. destruct rest as [|e rest].
  - simpl. exact Hrun.
  - rewrite last_cons_cons.
    destruct (last (e :: rest)) as [[]|] eqn:Hlast; try reflexivity.
    apply last_None in Hlast. discriminate.
Qed.

(** The trace is the whole of the run. The loop returns only from a store in
    which its test fails, and that store is the one the trace ends in; it
    panics only where the trace ends, because the frame under the index
    cannot be read there or because the last callback panicked; and it is
    cut short only by a callback that does not return or, in this model,
    after as many crossings as there was fuel. *)
Lemma Update_loop_whole fuel p s :
  match snd (Update_loop run fuel p s) with
  | Ok s' =>
      trace_end run p s (fst (Update_loop run fuel p s)) = Ok s' ∧
      at_rest p s'
  | Panic =>
      trace_end run p s (fst (Update_loop run fuel p s)) = Panic ∨
      ∃ s', trace_end run p s (fst (Update_loop run fuel p s)) = Ok s' ∧
            unreadable p s'
  | Timeout =>
      crossings (fst (Update_loop run fuel p s)) = fuel ∨
      trace_end run p s (fst (Update_loop run fuel p s)) = Timeout
  end.
Proof.
  revert s. induction fuel as [|fuel IH]; intros s; [now left|].
  rewrite Update_loop_S.
  destruct (animations s !! p) as [a|] eqn:Ha.
  2: { right. exists s. split; [reflexivity|].
       unfold unreadable. now rewrite Ha. }
  destruct (index (frames_at s a (currTag a)) (currFrame a)) as [fr|] eqn:Hfr.
  2: { right. exists s. split; [reflexivity|].
       unfold unreadable. now rewrite Ha. }
  case_bool_decide as Hgt.
  2: { split; [reflexivity|]. exists a, fr.
       split; [exact Ha|]. split; [exact Hfr | lia]. }
  cbv zeta.
  set (a2 := advance_frame s a fr). set (s2 := store_animation p a2 s).
  destruct (skips_callback s2 a2) eqn:Hs.
  - cbn [fst snd]. rewrite trace_end_Advanced.
    specialize (IH s2).
    destruct (snd (Update_loop run fuel p s2)); [exact IH | exact IH |].
    destruct IH as [IH|IH]; [left | right; exact IH].
    unfold crossings in *. rewrite filter_cons. simpl. now rewrite IH.
  - destruct (callback_at s2 a2 (currTag a2)) as [cb|] eqn:Hcb.
    + destruct (run cb p s2) as [s3| |] eqn:Hrun; cbn [fst snd].
      * rewrite trace_end_Advanced, (trace_end_Called p s2 cb s2 s3 _ Hrun).
        specialize (IH s3).
        destruct (snd (Update_loop run fuel p s3)); [exact IH | exact IH |].
        destruct IH as [IH|IH]; [left | right; exact IH].
        unfold crossings in *. rewrite !filter_cons. simpl. now rewrite IH.
      * left. unfold trace_end. simpl. exact Hrun.
      * right. unfold trace_end. simpl. exact Hrun.
    + unfold skips_callback in Hs. rewrite Hcb in Hs.
      rewrite (bool_decide_eq_true_2 (None = None)) in Hs by reflexivity.
      now rewrite orb_true_r in Hs.
Qed.

(** C1. One unpaused call of [Update], seen through the trace of what it
    does. Every crossing of a frame boundary that brings the index back to 0
    while a callback is registered for the current tag is followed at once by
    exactly one call of that callback, on the store of the crossing, and the
    loop carries on from the store the callback left; no other crossing calls
    anything, so the calls are as many as the crossings that owe one. On a
    valid tag the index is back at 0 exactly when the crossed frame was the
    last of its sequence. The trace is the whole of the call: [Update]
    returns only from a store in which the accumulated time no longer exceeds
    the duration of the current frame, which is the store the trace ends in;
    it panics only where the trace ends; and it is cut short only by a
    callback that does not return or after as many crossings as there was
    fuel. On a valid, non-empty tag with positive durations and well-behaved
    callbacks it returns for all fuel from some bound on. With [N] frames of
    [D] ms each, callbacks that leave the store alone and [k*D*N + r] ms
    elapsed, [0 <= r < D*N], the callback is called [k] times ([k - 1] times
    when [r = 0], the last boundary being reached but not exceeded). *)
Theorem Update_fires_once_per_wrap fuel p s a :
  animations s !! p = Some a → paused a = false →
  let s1 :=
    store_animation p
      (set_accumMillis (wrap64 (accumMillis a + DeltaMillis s)) a) s in
  let tr := fst (Update run fuel p s) in
  once_per_wrap run p s1 tr ∧ calls tr = wraps_owing p tr ∧
  (∀ tbl s0 a0 s2,
     lengths_fit tbl → plays s0 p tbl a0 → crossed p s0 = Some s2 →
     due_callback p s2 =
       if decide (currFrame a0 + 1 = len (frames_at s0 a0 (currTag a0)))
       then callback_at s0 a0 (currTag a0) else None) ∧
  match snd (Update run fuel p s) with
  | Ok s' => trace_end run p s1 tr = Ok s' ∧ at_rest p s'
  | Panic =>
      trace_end run p s1 tr = Panic ∨
      ∃ s', trace_end run p s1 tr = Ok s' ∧ unreadable p s'
  | Timeout => crossings tr = fuel ∨ trace_end run p s1 tr = Timeout
  end ∧
  (∀ tbl,
     lengths_fit tbl → durations_positive tbl → well_behaved run p tbl →
     plays s p tbl a →
     ∃ n : nat, ∀ fuel', (n ≤ fuel')%nat →
       ∃ s', snd (Update run fuel' p s) = Ok s') ∧
  (∀ tbl D cb frames k r,
     lengths_fit tbl → 0 < D → (∀ c q s0, run c q s0 = Ok s0) →
     plays s p tbl a → tbl !! currTag a = Some frames →
     Forall (λ fr, DurationMillis fr = D) frames →
     callback_at s a (currTag a) = Some cb →
     currFrame a = 0 → accumMillis a = 0 →
     0 <= k → 0 <= r < D * len frames →
     DeltaMillis s = k * D * len frames + r →
     DeltaMillis s <= int64_max →
     DeltaMillis s < Z.of_nat fuel →
     Z.of_nat (calls tr) = if decide (r = 0) then Z.max 0 (k - 1) else k).
Proof.
  intros Ha Hp s1 tr.
  assert (∀ f, Update run f p s = Update_loop run f p s1) as HU
    by (intros f; unfold Update; now rewrite Ha, Hp).
  pose proof (once_per_wrap_loop fuel p s1) as H.
  split; [subst tr; rewrite HU; exact H|].
  split; [subst tr; rewrite HU; exact (once_per_wrap_count p s1 _ H)|].
  split; [|split; [|split]].
  - intros tbl s0 a0 s2 Hfit Hplay Hcross.
    destruct (crossed_spec tbl p s0 a0 s2 Hfit Hplay Hcross)
      as (fr & _ & _ & ->).
    unfold due_callback. rewrite lookup_store_animation. simpl.
    destruct Hplay as (_ & _ & Hb). unfold in_bounds in Hb.
    destruct (decide (currFrame a0 + 1 = len _)) as [Hlast|Hmid].
    + reflexivity.
    + destruct (decide (currFrame a0 + 1 = 0)); [lia | reflexivity].
  - subst tr. rewrite HU. exact (Update_loop_whole fuel p s1).
  - intros tbl Hfit Hpos Hwb Hplay.
    pose proof Hplay as (_ & Htbl & Hb).
    set (a1 := set_accumMillis (wrap64 (accumMillis a + DeltaMillis s)) a)
      in *.
    exists (S (Z.to_nat (accumMillis a1))). intros fuel' Hfuel.
    rewrite HU.
    assert (plays s1 p tbl a1) as Hplay1.
    { split; [apply lookup_store_animation|]. split; assumption. }
    pose proof (wrap64_in_int64 (accumMillis a + DeltaMillis s)) as [_ Hmax].
    destruct (Update_loop_returns tbl p Hfit Hpos Hwb fuel' _ a1 Hplay1)
      as (s' & a' & fr & Hr & _); [exact Hmax | lia | lia |].
    exists s'. exact Hr.
  - intros tbl D cb frames k r Hfit HD Hrun Hplay Hseq Hall Hcb Hcf Hacc Hk Hr
           Hdelta Hmax Hfuel.
    subst tr.
    exact (Update_call_count_rounds tbl p D cb s a frames k r Hfit HD Hrun
             Hplay Hp Hseq Hall Hcb Hcf Hacc Hk Hr Hdelta Hmax fuel Hfuel).
Qed.

(** With positive durations every crossing strictly lowers the accumulated
    time. *)
Lemma crossing_lowers_accumulator tbl p s a s2 a2 :
  durations_positive tbl → plays s p tbl a → accumMillis a <= int64_max →
  crossed p s = Some s2 → animations s2 !! p = Some a2 →
  accumMillis a2 < accumMillis a.
Proof.
  intros Hpos (Ha & Htbl & Hb) Hmax Hcross Ha2. unfold crossed in Hcross.
  rewrite Ha in Hcross.
  destruct (index _ _) as [fr|] eqn:Hfr; [|discriminate].
  case_bool_decide as Hgt; [|discriminate].
  injection Hcross as <-. rewrite lookup_store_animation in Ha2.
  injection Ha2 as <-.
  rewrite (frames_at_table s a tbl _ Htbl) in Hfr.
  destruct (tbl !! currTag a) as [frames|] eqn:Hseq; simpl in Hfr;
    [|now destruct (currFrame a)].
  apply index_Some in Hfr as [_ Hfr].
  pose proof (Forall_lookup_1 _ _ _ _ (Hpos _ _ Hseq) Hfr) as Hdur.
  simpl in Hdur. unfold advance_frame. simpl.
  rewrite wrap64_id by (unfold in_int64, int64_min, int64_max in *; lia).
  lia.
Qed.

(** C6, as the code has it. When every frame has a positive duration and
    the callbacks are well behaved, [Update] on an animation with a valid,
    non-empty current tag returns: each crossing strictly lowers the
    accumulated time, so fuel beyond the accumulated time is never used
    up. *)
Theorem Update_terminates tbl p s a :
  lengths_fit tbl → durations_positive tbl → well_behaved run p tbl →
  plays s p tbl a →
  (∃ n : nat, ∀ fuel, (n ≤ fuel)%nat →
     ∃ s' a', snd (Update run fuel p s) = Ok s' ∧ plays s' p tbl a') ∧
  (∀ s1 a1 s2 a2,
     plays s1 p tbl a1 → accumMillis a1 <= int64_max →
     crossed p s1 = Some s2 → animations s2 !! p = Some a2 →
     accumMillis a2 < accumMillis a1).
Proof.
  intros Hfit Hpos Hwb Hplay.
  split; [|intros s1 a1 s2 a2; now apply crossing_lowers_accumulator].
  pose proof Hplay as (Ha & Htbl & Hb).
  set (a1 := set_accumMillis (wrap64 (accumMillis a + DeltaMillis s)) a).
  exists (S (Z.to_nat (accumMillis a1))). intros fuel Hfuel.
  unfold Update. rewrite Ha. destruct (paused a).
  - exists s, a. split; [reflexivity | exact Hplay].
  - fold a1.
    assert (plays (store_animation p a1 s) p tbl a1) as Hplay1.
    { split; [apply lookup_store_animation|]. split; assumption. }
    pose proof (wrap64_in_int64 (accumMillis a + DeltaMillis s)) as [_ Hmax].
    destruct (Update_loop_returns tbl p Hfit Hpos Hwb fuel _ a1 Hplay1)
      as (s' & a' & fr & Hr & Hp' & _); [exact Hmax | lia | lia |].
    exists s', a'. split; assumption.
Qed.

(** C3, as the code has it. Under the same conditions, starting from a
    non-negative accumulated time and adding a non-negative [DeltaMillis]
    without overflow, an unpaused [Update] returns with
    [0 <= accumMillis <= DurationMillis] of the current frame; a paused one
    changes nothing. The upper bound is not strict. *)
Theorem Update_accumulator_bounds tbl p s a :
  lengths_fit tbl → durations_positive tbl → well_behaved run p tbl →
  plays s p tbl a →
  0 <= accumMillis a → 0 <= DeltaMillis s →
  accumMillis a + DeltaMillis s <= int64_max →
  ∃ n : nat, ∀ fuel, (n ≤ fuel)%nat →
    ∃ s' a' fr,
      snd (Update run fuel p s) = Ok s' ∧
      animations s' !! p = Some a' ∧
      index (frames_at s' a' (currTag a')) (currFrame a') = Some fr ∧
      (paused a = false → 0 <= accumMillis a' <= DurationMillis fr) ∧
      (paused a = true → s' = s).
Proof.
  intros Hfit Hpos Hwb Hplay Hacc Hdelta Hsum.
  pose proof Hplay as (Ha & Htbl & Hb).
  set (a1 := set_accumMillis (wrap64 (accumMillis a + DeltaMillis s)) a).
  exists (S (Z.to_nat (accumMillis a1))). intros fuel Hfuel.
  unfold Update. rewrite Ha. destruct (paused a).
  - destruct (in_bounds_sequence tbl a Hb) as (frames & fr & Hseq & Hfr).
    exists s, a, fr. split; [reflexivity|]. split; [exact Ha|].
    split; [now rewrite (frames_at_table s a tbl _ Htbl), Hseq|].
    split; [discriminate | reflexivity].
  - fold a1.
    assert (plays (store_animation p a1 s) p tbl a1) as Hplay1.
    { split; [apply lookup_store_animation|]. split; assumption. }
    assert (accumMillis a1 = accumMillis a + DeltaMillis s) as Hacc1.
    { unfold a1. simpl. apply wrap64_id.
      unfold in_int64, int64_min, int64_max in *. lia. }
    destruct (Update_loop_returns tbl p Hfit Hpos Hwb fuel _ a1 Hplay1)
      as (s' & a' & fr & Hr & (Ha' & _) & Hfr & Hle & _ & Hnn); [lia..|].
    exists s', a', fr. split; [exact Hr|]. split; [exact Ha'|].
    split; [exact Hfr|]. split; [intros _; lia | discriminate].
Qed.

(** A frame of duration 0 that is alone in its sequence, with no callback
    owed: the loop body leaves the store as it found it, so the loop never
    ends. *)
Lemma Update_loop_stalls p s a fr :
  animations s !! p = Some a →
  index (frames_at s a (currTag a)) (currFrame a) = Some fr →
  accumMillis a > DurationMillis fr →
  advance_frame s a fr = a →
  skips_callback s a = true →
  ∀ fuel, snd (Update_loop run fuel p s) = Timeout.
Proof.
  intros Ha Hfr Hgt Hsame Hskip fuel.
  induction fuel as [|fuel IH]; [reflexivity|].
  rewrite Update_loop_S, Ha, Hfr, bool_decide_eq_true_2 by exact Hgt.
  cbv zeta. rewrite Hsame, (store_animation_same p a s Ha), Hskip.
  exact IH.
Qed.

End Loop.

(** *** Callbacks of the examples *)

Lemma run_nothing_well_behaved p tbl : well_behaved run_nothing p tbl.
Proof.
  intros cb s a Hplay. exists s, a.
  split; [reflexivity|]. split; [exact Hplay|]. split; [lia | tauto].
Qed.

Lemma run_nothing_leaves_alone p : leaves_alone run_nothing p.
Proof. intros cb q s s' _ [= <-]. reflexivity. Qed.

(** Callbacks that call [SetTag] on the animation they are handed do not
    write any other animation. *)
Lemma run_SetTag_leaves_alone target p : leaves_alone (run_SetTag target) p.
Proof.
  intros cb q s s' Hne. unfold run_SetTag, SetTag, on_receiver.
  destruct (animations s !! q) as [a|]; [|discriminate].
  intros [= <-]. simpl. now rewrite lookup_insert_ne.
Qed.

Lemma decided (P : Prop) `{Decision P} : bool_decide P = true → P.
Proof. apply bool_decide_eq_true_1. Qed.

(** Settle a decidable statement about concrete data by evaluation. *)
Ltac evaluate :=
  match goal with |- ?P => apply (@decided P _); vm_compute; reflexivity end.

Lemma Update_fires_once_per_wrap_witness :
  let s1 :=
    store_animation 1
      (set_accumMillis
         (wrap64 (accumMillis (Examples.playing "" 0 0)
                  + DeltaMillis Examples.looping))
         (Examples.playing "" 0 0))
      Examples.looping in
  let tr := fst (Update run_nothing 70 1 Examples.looping) in
  let s' :=
    Examples.player Examples.three_frames {[ "" := Some 7%nat ]} "" 0 5 65 in
  once_per_wrap run_nothing 1 s1 tr ∧
  calls tr = 2%nat ∧
  snd (Update run_nothing 70 1 Examples.looping) = Ok s' ∧
  trace_end run_nothing 1 s1 tr = Ok s' ∧ at_rest 1 s'.
Proof.
  destruct (Update_fires_once_per_wrap run_nothing 70 1 Examples.looping
              (Examples.playing "" 0 0) eq_refl eq_refl)
    as (Htrace & _ & _ & Hwhole & _ & Hcount).
  assert (snd (Update run_nothing 70 1 Examples.looping)
          = Ok (Examples.player Examples.three_frames {[ "" := Some 7%nat ]}
                  "" 0 5 65)) as Hres by (vm_compute; reflexivity).
  cbv zeta. split; [exact Htrace|]. split; [|split; [exact Hres|]].
  - apply Nat2Z.inj.
    rewrite (Hcount Examples.three_frames 10 7%nat
               [Examples.ms 10; Examples.ms 10; Examples.ms 10] 2 5).
    + reflexivity.
    + evaluate.
    + lia.
    + reflexivity.
    + split; [reflexivity|]. split; [reflexivity|]. evaluate.
    + reflexivity.
    + repeat constructor.
    + reflexivity.
    + reflexivity.
    + reflexivity.
    + lia.
    + unfold len. simpl. lia.
    + reflexivity.
    + vm_compute. discriminate.
    + vm_compute. reflexivity.
  - rewrite Hres in Hwhole. exact Hwhole.
Defined.

(** 65 ms over three frames of 10 ms: the sequence ends twice within the
    call, and the callback is called twice. *)
Example looping_fires_twice :
  calls (fst (Update run_nothing 20 1 Examples.looping)) = 2%nat ∧
  snd (Update run_nothing 20 1 Examples.looping)
    = Ok (Examples.player Examples.three_frames {[ "" := Some 7%nat ]}
            "" 0 5 65).
Proof. split; vm_compute; reflexivity. Qed.

Lemma looping_plays :
  plays Examples.looping 1 Examples.three_frames (Examples.playing "" 0 0).
Proof.
  split; [reflexivity|]. split; [reflexivity|].
  evaluate.
Qed.

Lemma Update_terminates_witness :
  (∃ n : nat, ∀ fuel, (n ≤ fuel)%nat →
     ∃ s' a',
       snd (Update run_nothing fuel 1 Examples.looping) = Ok s' ∧
       plays s' 1 Examples.three_frames a') ∧
  (∀ s1 a1 s2 a2,
     plays s1 1 Examples.three_frames a1 → accumMillis a1 <= int64_max →
     crossed 1 s1 = Some s2 → animations s2 !! 1%positive = Some a2 →
     accumMillis a2 < accumMillis a1).
Proof.
  apply (Update_terminates run_nothing Examples.three_frames 1
           Examples.looping (Examples.playing "" 0 0)).
  - evaluate.
  - evaluate.
  - apply run_nothing_well_behaved.
  - apply looping_plays.
Defined.

Lemma Update_accumulator_bounds_witness :
  ∃ n : nat, ∀ fuel, (n ≤ fuel)%nat →
    ∃ s' a' fr,
      snd (Update run_nothing fuel 1 Examples.looping) = Ok s' ∧
      animations s' !! 1%positive = Some a' ∧
      index (frames_at s' a' (currTag a')) (currFrame a') = Some fr ∧
      (paused (Examples.playing "" 0 0) = false →
         0 <= accumMillis a' <= DurationMillis fr) ∧
      (paused (Examples.playing "" 0 0) = true → s' = Examples.looping).
Proof.
  apply (Update_accumulator_bounds run_nothing Examples.three_frames 1
           Examples.looping (Examples.playing "" 0 0)).
  - evaluate.
  - evaluate.
  - apply run_nothing_well_behaved.
  - apply looping_plays.
  - simpl. lia.
  - simpl. lia.
  - vm_compute. discriminate.
Defined.

(** C3 as stated does not hold: one frame of 100 ms and exactly 100 ms
    elapsed leave the accumulated time at 100, equal to the duration of the
    current frame and so not below it. *)
Lemma accumulator_can_equal_duration :
  plays Examples.on_the_boundary 1 Examples.one_long_frame (Examples.playing "" 0 0) ∧
  durations_positive Examples.one_long_frame ∧
  snd (Update run_nothing 2 1 Examples.on_the_boundary)
    = Ok (Examples.player Examples.one_long_frame ∅ "" 0 100 100) ∧
  index (frames_at (Examples.player Examples.one_long_frame ∅ "" 0 100 100)
           (Examples.playing "" 0 100) "") 0
    = Some (Examples.ms 100) ∧
  ¬ (0 <= accumMillis (Examples.playing "" 0 100)
       < DurationMillis (Examples.ms 100)).
Proof.
  split.
  { split; [reflexivity|]. split; [reflexivity|].
    evaluate. }
  split; [evaluate|].
  split; [vm_compute; reflexivity|].
  split; [vm_compute; reflexivity|].
  simpl. lia.
Qed.

(** C6 as stated does not hold: with a single frame of duration 0 and 1 ms
    elapsed, the current tag is valid and non-empty, yet no amount of fuel
    lets [Update] return. *)
Lemma zero_duration_never_returns :
  plays Examples.stalled 1 Examples.one_empty_frame (Examples.playing "" 0 0) ∧
  ∀ fuel, snd (Update run_nothing fuel 1 Examples.stalled) = Timeout.
Proof.
  split.
  { split; [reflexivity|]. split; [reflexivity|].
    evaluate. }
  intros fuel.
  change (Update run_nothing fuel 1 Examples.stalled)
    with (Update_loop run_nothing fuel 1
            (Examples.player Examples.one_empty_frame ∅ "" 0 1 1)).
  apply (Update_loop_stalls run_nothing 1 _ (Examples.playing "" 0 1)
           (Examples.ms 0)).
  - reflexivity.
  - reflexivity.
  - simpl. lia.
  - vm_compute. reflexivity.
  - vm_compute. reflexivity.
Qed.

Section Operations.

Variable run : CallbackId → loc → Store → result Store.

(** C5, as the code has it. [Restart] sets the frame index to 0 and leaves
    every other field of the animation, and the rest of the store, as it
    was. A following [Update] with [DeltaMillis = 0] changes nothing when the
    animation is paused, or when the accumulated time does not exceed the
    duration of the first frame of the current tag. *)
Theorem Restart_then_idle_Update p s a :
  animations s !! p = Some a →
  ∃ s1,
    Restart p s = Ok s1 ∧
    animations s1 !! p
      = Some (mkAnimation (paused a) (framesByTagName a) (currTag a) 0
                (accumMillis a) (callbacks a) (Source a)) ∧
    (∀ q, q ≠ p → animations s1 !! q = animations s !! q) ∧
    frameTables s1 = frameTables s ∧
    callbackTables s1 = callbackTables s ∧
    TotalMillis s1 = TotalMillis s ∧ DeltaMillis s1 = DeltaMillis s ∧
    (DeltaMillis s = 0 → in_int64 (accumMillis a) →
     paused a = true ∨
       (∃ fr, index (frames_at s a (currTag a)) 0 = Some fr ∧
              accumMillis a <= DurationMillis fr) →
     ∀ fuel, Update run (S fuel) p s1 = ([], Ok s1)).
Proof.
  intros Ha. exists (store_animation p (set_currFrame 0 a) s).
  split; [unfold Restart, on_receiver; now rewrite Ha|].
  split; [apply lookup_store_animation|].
  split; [intros q Hq; now apply lookup_store_animation_ne|].
  do 4 (split; [reflexivity|]).
  intros Hdelta Hint Hidle fuel. unfold Update.
  rewrite lookup_store_animation.
  change (paused (set_currFrame 0 a)) with (paused a).
  destruct (paused a) eqn:Hp; [reflexivity|].
  destruct Hidle as [Hidle|(fr & Hfr & Hle)]; [discriminate|].
  change (DeltaMillis (store_animation p (set_currFrame 0 a) s))
    with (DeltaMillis s).
  change (accumMillis (set_currFrame 0 a)) with (accumMillis a).
  rewrite Hdelta, Z.add_0_r, (wrap64_id _ Hint).
  assert (set_accumMillis (accumMillis a) (set_currFrame 0 a)
            = set_currFrame 0 a) as -> by reflexivity.
  rewrite store_animation_twice. rewrite Update_loop_S.
  rewrite lookup_store_animation.
  change (index (frames_at (store_animation p (set_currFrame 0 a) s)
                   (set_currFrame 0 a) (currTag (set_currFrame 0 a)))
            (currFrame (set_currFrame 0 a)))
    with (index (frames_at s a (currTag a)) 0).
  rewrite Hfr.
  change (accumMillis (set_currFrame 0 a)) with (accumMillis a).
  now rewrite bool_decide_eq_false_2 by lia.
Qed.

(** Advancing one animation does not write another one, as long as the
    callbacks it calls do not. *)
Lemma Update_loop_leaves_alone p q :
  leaves_alone run p → q ≠ p →
  ∀ fuel s s',
    snd (Update_loop run fuel q s) = Ok s' →
    animations s' !! p = animations s !! p.
Proof.
  intros Hla Hne. induction fuel as [|fuel IH]; intros s s'; [discriminate|].
  rewrite Update_loop_S.
  destruct (animations s !! q) as [a|]; [|discriminate].
  destruct (index _ _) as [fr|]; [|discriminate].
  case_bool_decide; [|intros [= <-]; reflexivity].
  cbv zeta. set (s2 := store_animation q (advance_frame s a fr) s).
  assert (animations s2 !! p = animations s !! p) as Hs2
    by now apply lookup_store_animation_ne.
  destruct (skips_callback _ _).
  - simpl. intros Hr. now rewrite (IH _ _ Hr).
  - destruct (callback_at _ _ _) as [cb|]; [|discriminate].
    destruct (run cb q s2) as [s3| |] eqn:Hrun; try discriminate.
    simpl. intros Hr. rewrite (IH _ _ Hr).
    now rewrite (Hla cb q s2 s3 Hne Hrun).
Qed.

Lemma Update_leaves_alone p q :
  leaves_alone run p → q ≠ p →
  ∀ fuel s s',
    snd (Update run fuel q s) = Ok s' →
    animations s' !! p = animations s !! p.
Proof.
  intros Hla Hne fuel s s'. unfold Update.
  destruct (animations s !! q) as [a|]; [|discriminate].
  destruct (paused a); [intros [= <-]; reflexivity|].
  intros Hr. rewrite (Update_loop_leaves_alone p q Hla Hne _ _ _ Hr).
  now apply lookup_store_animation_ne.
Qed.

(** C7, as the code has it. [Clone] of any animation returns a new
    animation, distinct from every existing one, that refers to the very same
    frame table (which is not copied), has the source's tag, frame index and
    paused flag, and has accumulated time 0; every tag has the callback it has
    in the source, and the source is left as it was. If the source has a
    callback table, the clone owns a new one holding the same entries, and a
    callback registered on either of the two afterwards does not show in the
    table of the other; if the source's callback map is nil, so is the
    clone's, and [OnEnd] on the clone panics. Advancing the clone leaves the
    source as it was, provided the callbacks called on the clone do not
    themselves write the source. *)
Theorem Clone_shares_frames_only p s a :
  animations s !! p = Some a →
  ∃ p' s' a',
    Clone p s = Ok (p', s') ∧
    animations s !! p' = None ∧ p' ≠ p ∧
    animations s' !! p' = Some a' ∧
    animations s' !! p = Some a ∧
    framesByTagName a' = framesByTagName a ∧
    frameTables s' = frameTables s ∧
    currTag a' = currTag a ∧ currFrame a' = currFrame a ∧
    paused a' = paused a ∧ accumMillis a' = 0 ∧
    (∀ tag, callback_at s' a' tag = callback_at s a tag) ∧
    (∀ tag, callback_at s' a tag = callback_at s a tag) ∧
    (callbacks a = None →
     callbacks a' = None ∧ callbackTables s' = callbackTables s ∧
     ∀ tag cb, OnEnd tag cb p' s' = Panic) ∧
    (∀ c cbs,
       callbacks a = Some c → callbackTables s !! c = Some cbs →
       ∃ c',
         callbacks a' = Some c' ∧ c' ≠ c ∧
         callbackTables s !! c' = None ∧
         callbackTables s' !! c' = Some cbs ∧
         callbackTables s' !! c = Some cbs ∧
         (∀ tag cb,
            ∃ s2, OnEnd tag cb p' s' = Ok s2 ∧
                  callbackTables s2 !! c = Some cbs ∧
                  callbackTables s2 !! c' = Some (<[tag := cb]> cbs)) ∧
         (∀ tag cb,
            ∃ s2, OnEnd tag cb p s' = Ok s2 ∧
                  callbackTables s2 !! c = Some (<[tag := cb]> cbs) ∧
                  callbackTables s2 !! c' = Some cbs)) ∧
    (leaves_alone run p →
     ∀ fuel s'',
       snd (Update run fuel p' s') = Ok s'' → animations s'' !! p = Some a).
Proof.
  intros Ha.
  destruct (callbacks a) as [c|] eqn:Hc;
    [destruct (callbackTables s !! c) as [cbs|] eqn:Hcbs|].
  - set (c' := fresh (dom (callbackTables s))).
    set (s1 := store_callbackTable c' cbs s).
    set (p' := fresh (dom (animations s1))).
    set (a' := mkAnimation (paused a) (framesByTagName a) (currTag a)
                 (currFrame a) 0 (Some c') None).
    assert (callbackTables s !! c' = None) as Hc'.
    { apply not_elem_of_dom. apply is_fresh. }
    assert (animations s !! p' = None) as Hp'.
    { apply not_elem_of_dom. apply (is_fresh (dom (animations s1))). }
    assert (p' ≠ p) as Hpp by congruence.
    assert (c' ≠ c) as Hcc by congruence.
    exists p', (store_animation p' a' s1), a'.
    split.
    { unfold Clone, maps_Clone. rewrite Ha, Hc, Hcbs. reflexivity. }
    split; [exact Hp'|]. split; [exact Hpp|].
    split; [apply lookup_store_animation|].
    split; [rewrite lookup_store_animation_ne by exact Hpp; exact Ha|].
    do 6 (split; [reflexivity|]).
    split.
    { intros tag. unfold callback_at. rewrite Hc, Hcbs. simpl.
      now rewrite lookup_insert_eq. }
    split.
    { intros tag. unfold callback_at. rewrite Hc, Hcbs. simpl.
      rewrite lookup_insert_ne by exact Hcc. now rewrite Hcbs. }
    split; [discriminate|].
    split.
    + intros c0 cbs0 [= <-]. rewrite Hcbs. intros [= <-].
      exists c'. split; [reflexivity|]. split; [exact Hcc|].
      split; [exact Hc'|].
      split; [simpl; apply lookup_insert_eq|].
      split; [simpl; now rewrite lookup_insert_ne|].
      split.
      * intros tag cb. unfold OnEnd. rewrite lookup_store_animation. simpl.
        rewrite lookup_insert_eq. eexists. split; [reflexivity|]. simpl.
        split.
        -- now rewrite !lookup_insert_ne.
        -- apply lookup_insert_eq.
      * intros tag cb. unfold OnEnd.
        rewrite lookup_store_animation_ne by exact Hpp.
        change (animations s1 !! p) with (animations s !! p).
        rewrite Ha, Hc. simpl.
        rewrite lookup_insert_ne by exact Hcc. rewrite Hcbs.
        eexists. split; [reflexivity|]. simpl. split.
        -- apply lookup_insert_eq.
        -- rewrite lookup_insert_ne by congruence. apply lookup_insert_eq.
    + intros Hla fuel s'' Hr.
      rewrite (Update_leaves_alone p p' Hla Hpp _ _ _ Hr).
      rewrite lookup_store_animation_ne by exact Hpp. exact Ha.
  - set (p' := fresh (dom (animations s))).
    set (a' := mkAnimation (paused a) (framesByTagName a) (currTag a)
                 (currFrame a) 0 None None).
    assert (animations s !! p' = None) as Hp'.
    { apply not_elem_of_dom. apply is_fresh. }
    assert (p' ≠ p) as Hpp by congruence.
    exists p', (store_animation p' a' s), a'.
    split.
    { unfold Clone, maps_Clone. rewrite Ha, Hc, Hcbs. reflexivity. }
    split; [exact Hp'|]. split; [exact Hpp|].
    split; [apply lookup_store_animation|].
    split; [rewrite lookup_store_animation_ne by exact Hpp; exact Ha|].
    do 6 (split; [reflexivity|]).
    split; [intros tag; unfold callback_at; rewrite Hc; simpl;
            now rewrite Hcbs|].
    split; [intros tag; reflexivity|].
    split; [discriminate|].
    split; [intros c0 cbs0 [= <-]; rewrite Hcbs; discriminate|].
    intros Hla fuel s'' Hr.
    rewrite (Update_leaves_alone p p' Hla Hpp _ _ _ Hr).
    rewrite lookup_store_animation_ne by exact Hpp. exact Ha.
  - set (p' := fresh (dom (animations s))).
    set (a' := mkAnimation (paused a) (framesByTagName a) (currTag a)
                 (currFrame a) 0 None None).
    assert (animations s !! p' = None) as Hp'.
    { apply not_elem_of_dom. apply is_fresh. }
    assert (p' ≠ p) as Hpp by congruence.
    exists p', (store_animation p' a' s), a'.
    split.
    { unfold Clone, maps_Clone. rewrite Ha, Hc. reflexivity. }
    split; [exact Hp'|]. split; [exact Hpp|].
    split; [apply lookup_store_animation|].
    split; [rewrite lookup_store_animation_ne by exact Hpp; exact Ha|].
    do 6 (split; [reflexivity|]).
    split; [intros tag; unfold callback_at; now rewrite Hc|].
    split; [intros tag; reflexivity|].
    split.
    { intros _. split; [reflexivity|]. split; [reflexivity|].
      intros tag cb. unfold OnEnd. now rewrite lookup_store_animation. }
    split; [discriminate|].
    intros Hla fuel s'' Hr.
    rewrite (Update_leaves_alone p p' Hla Hpp _ _ _ Hr).
    rewrite lookup_store_animation_ne by exact Hpp. exact Ha.
Qed.

(** C10. [NewAnimation] of the nil map returns nil and allocates nothing; of
    a map it returns a new animation that refers to that map, has the empty
    current tag, frame index 0, accumulated time 0, is not paused, and owns a
    new, empty callback table, so that no tag has a callback. *)
Theorem NewAnimation_nil_or_fresh s :
  NewAnimation None s = (None, s) ∧
  ∀ m, ∃ p c s' a,
    NewAnimation (Some m) s = (Some p, s') ∧
    animations s !! p = None ∧
    animations s' !! p = Some a ∧
    framesByTagName a = Some m ∧ frameTables s' = frameTables s ∧
    currTag a = "" ∧ currFrame a = 0 ∧ paused a = false ∧
    accumMillis a = 0 ∧
    callbacks a = Some c ∧ callbackTables s !! c = None ∧
    callbackTables s' !! c = Some ∅ ∧
    ∀ tag, callback_at s' a tag = None.
Proof.
  split; [reflexivity|]. intros m.
  set (c := fresh (dom (callbackTables s))).
  set (p := fresh (dom (animations s))).
  set (a := mkAnimation false (Some m) "" 0 0 (Some c) None).
  exists p, c, (store_animation p a (store_callbackTable c ∅ s)), a.
  split; [reflexivity|].
  split; [apply not_elem_of_dom, is_fresh|].
  split; [apply lookup_store_animation|].
  do 6 (split; [reflexivity|]). split; [reflexivity|].
  split; [apply not_elem_of_dom, is_fresh|].
  split; [simpl; apply lookup_insert_eq|].
  intros tag. unfold callback_at. simpl. now rewrite lookup_insert_eq.
Qed.

(** With well-behaved callbacks the loop never indexes out of range: every
    store it passes through, and the store it returns, has the frame index
    inside the sequence of the then current tag. *)
Lemma Update_loop_keeps_playing tbl p :
  lengths_fit tbl → well_behaved run p tbl →
  ∀ fuel s a,
    plays s p tbl a →
    Forall (λ e, ∃ a', plays (event_store e) p tbl a')
           (fst (Update_loop run fuel p s)) ∧
    snd (Update_loop run fuel p s) ≠ Panic ∧
    (∀ s', snd (Update_loop run fuel p s) = Ok s' → ∃ a', plays s' p tbl a').
Proof.
  intros Hfit Hwb. induction fuel as [|fuel IH]; intros s a Hplay.
  { simpl. split; [constructor|]. split; discriminate. }
  rewrite Update_loop_S.
  pose proof Hplay as (Ha & Htbl & Hb).
  destruct (in_bounds_sequence tbl a Hb) as (frames & fr & Hseq & Hfr).
  rewrite Ha, (frames_at_table s a tbl _ Htbl), Hseq.
  change (default [] (Some frames)) with frames. rewrite Hfr.
  case_bool_decide as Hgt.
  - cbv zeta. set (a2 := advance_frame s a fr).
    set (s2 := store_animation p a2 s).
    assert (plays s2 p tbl a2) as Hplay2 by now apply crossing_plays.
    destruct (skips_callback s2 a2) eqn:Hs.
    + destruct (IH s2 a2 Hplay2) as (Htr & Hnp & Hok). simpl.
      split; [constructor; [exists a2; exact Hplay2 | exact Htr]|].
      split; assumption.
    + destruct (callback_at s2 a2 (currTag a2)) as [cb|] eqn:Hcb.
      * destruct (Hwb cb s2 a2 Hplay2) as (s3 & a3 & Hrun & Hplay3 & _).
        rewrite Hrun. destruct (IH s3 a3 Hplay3) as (Htr & Hnp & Hok). simpl.
        split; [|split; assumption].
        constructor; [exists a2; exact Hplay2|].
        constructor; [exists a2; exact Hplay2 | exact Htr].
      * unfold skips_callback in Hs. rewrite Hcb in Hs.
        rewrite (bool_decide_eq_true_2 (None = None)) in Hs by reflexivity.
        now rewrite orb_true_r in Hs.
  - simpl. split; [constructor|]. split; [discriminate|].
    intros s' [= <-]. exists a. exact Hplay.
Qed.

(** C8. The end callback of the current tag calls [SetTag] with another
    tag, and the callbacks are well behaved (so that tag exists and is not
    empty). When the last frame of the current tag is crossed, the remainder
    of the same [Update] call is the loop run afresh on the store in which
    the current tag is the new one and the index is 0: its next test and
    crossing read the length and durations of the new tag's sequence, and its
    callbacks are looked up under the new tag. From there on the frame index
    stays inside the sequence of the current tag and the call does not
    panic. *)
Theorem SetTag_in_callback_redirects_loop tbl p s a fr cb tag' :
  lengths_fit tbl → well_behaved run p tbl →
  (∀ q s0, run cb q s0 = SetTag tag' q s0) →
  plays s p tbl a →
  index (frames_at s a (currTag a)) (currFrame a) = Some fr →
  accumMillis a > DurationMillis fr →
  currFrame a + 1 = len (frames_at s a (currTag a)) →
  callback_at s a (currTag a) = Some cb →
  tag' ≠ currTag a →
  let a3 :=
    mkAnimation (paused a) (framesByTagName a) tag' 0
      (wrap64 (accumMillis a - DurationMillis fr)) (callbacks a) (Source a) in
  let s3 := store_animation p a3 s in
  let frames' := default [] (tbl !! tag') in
  ∀ fuel,
    (∃ s2,
       Update_loop run (S fuel) p s
         = (Advanced s2 :: Called cb s2 :: fst (Update_loop run fuel p s3),
            snd (Update_loop run fuel p s3))) ∧
    plays s3 p tbl a3 ∧
    (∃ fr',
       index frames' 0 = Some fr' ∧
       crossed p s3 =
         if bool_decide (accumMillis a3 > DurationMillis fr') then
           Some (store_animation p
                   (mkAnimation (paused a) (framesByTagName a) tag'
                      (Z.rem 1 (len frames'))
                      (wrap64 (accumMillis a3 - DurationMillis fr'))
                      (callbacks a) (Source a)) s)
         else None) ∧
    (∀ s2', crossed p s3 = Some s2' →
       due_callback p s2' =
         if decide (Z.rem 1 (len frames') = 0) then callback_at s a tag'
         else None) ∧
    Forall (λ e, ∃ a', plays (event_store e) p tbl a')
           (fst (Update_loop run fuel p s3)) ∧
    snd (Update_loop run fuel p s3) ≠ Panic ∧
    (∀ s', snd (Update_loop run fuel p s3) = Ok s' →
           ∃ a', plays s' p tbl a').
Proof.
  intros Hfit Hwb Hcall Hplay Hfr Hgt Hlast Hcb Hne a3 s3 frames' fuel.
  pose proof Hplay as (Ha & Htbl & Hb).
  set (a2 := advance_frame s a fr).
  assert (plays (store_animation p a2 s) p tbl a2) as Hplay2
    by now apply crossing_plays.
  assert (run cb p (store_animation p a2 s) = Ok s3) as Hrun.
  { rewrite Hcall. unfold SetTag, on_receiver.
    rewrite lookup_store_animation, store_animation_twice.
    unfold s3. do 2 f_equal. unfold SetTag_fields.
    change (currTag a2) with (currTag a).
    destruct (decide (currTag a ≠ tag')) as [_|Hn];
      [reflexivity | exfalso; apply Hn; congruence]. }
  assert (plays s3 p tbl a3) as Hplay3.
  { destruct (Hwb cb _ a2 Hplay2) as (s3' & a3' & Hrun' & Hplay' & _).
    rewrite Hrun in Hrun'. injection Hrun' as <-.
    pose proof Hplay' as (Ha3' & _). unfold s3 in Ha3'.
    rewrite lookup_store_animation in Ha3'. injection Ha3' as <-.
    exact Hplay'. }
  assert (∃ fr' rest, tbl !! tag' = Some (fr' :: rest))
    as (fr' & rest & Hseq').
  { destruct Hplay3 as (_ & _ & Hb3). unfold in_bounds in Hb3. simpl in Hb3.
    destruct (tbl !! tag') as [[|fr' rest]|]; simpl in Hb3;
      try (unfold len in Hb3; simpl in Hb3; lia).
    eauto. }
  assert (crossed p s3 =
            if bool_decide (accumMillis a3 > DurationMillis fr') then
              Some (store_animation p
                      (mkAnimation (paused a) (framesByTagName a) tag'
                         (Z.rem 1 (len frames'))
                         (wrap64 (accumMillis a3 - DurationMillis fr'))
                         (callbacks a) (Source a)) s)
            else None) as Hcross.
  { unfold crossed. rewrite (proj1 Hplay3).
    rewrite (frames_at_table s3 a3 tbl) by apply Hplay3.
    change (currTag a3) with tag'. unfold frames'. rewrite Hseq'. simpl.
    case_bool_decide; [|reflexivity].
    unfold advance_frame. simpl.
    rewrite (frames_at_table s3 _ tbl) by apply Hplay3. simpl.
    rewrite Hseq'. simpl. unfold s3. now rewrite store_animation_twice. }
  split; [|split; [exact Hplay3|split; [|split]]].
  - exists (store_animation p a2 s).
    rewrite Update_loop_S, Ha, Hfr, bool_decide_eq_true_2 by exact Hgt.
    cbv zeta. fold a2.
    assert (currFrame a2 = 0) as Hzero.
    { unfold a2, advance_frame. simpl.
      change (frames_at s (set_accumMillis _ a) (currTag a))
        with (frames_at s a (currTag a)).
      rewrite Hlast.
      destruct (in_bounds_sequence tbl a Hb) as (frames & _ & Hseq & _).
      pose proof (Hfit _ _ Hseq) as Hlen. simpl in Hlen.
      unfold in_bounds in Hb.
      rewrite (frames_at_table s a tbl _ Htbl), Hseq in *. simpl in *.
      rewrite wrap64_id
        by (unfold in_int64, int64_min, int64_max in *; lia).
      apply Z.rem_same. lia. }
    assert (callback_at (store_animation p a2 s) a2 (currTag a2) = Some cb)
      as Hcb2 by exact Hcb.
    assert (skips_callback (store_animation p a2 s) a2 = false) as ->.
    { unfold skips_callback. rewrite Hcb2, Hzero.
      apply orb_false_iff. split; apply bool_decide_eq_false_2; congruence. }
    now rewrite Hcb2, Hrun.
  - exists fr'. unfold frames' at 1. rewrite Hseq'.
    split; [reflexivity | exact Hcross].
  - intros s2' Hs2'. rewrite Hcross in Hs2'.
    case_bool_decide; [|discriminate]. injection Hs2' as <-.
    unfold due_callback. rewrite lookup_store_animation. reflexivity.
  - exact (Update_loop_keeps_playing tbl p Hfit Hwb fuel s3 a3 Hplay3).
Qed.

End Operations.

(** Callbacks that switch to tags which exist and are non-empty are well
    behaved. *)
Lemma run_SetTag_well_behaved target p tbl :
  (∀ cb, ∃ frames, tbl !! target cb = Some frames ∧ frames ≠ []) →
  well_behaved (run_SetTag target) p tbl.
Proof.
  intros Htarget cb s a (Ha & Htbl & Hb).
  exists (store_animation p (SetTag_fields (target cb) a) s),
         (SetTag_fields (target cb) a).
  split; [unfold run_SetTag, SetTag, on_receiver; now rewrite Ha|].
  assert (accumMillis (SetTag_fields (target cb) a) = accumMillis a) as Hacc.
  { unfold SetTag_fields. now destruct (decide _). }
  split; [|rewrite Hacc; split; [lia | tauto]].
  split; [apply lookup_store_animation|]. split.
  - unfold table_of, SetTag_fields in *. now destruct (decide _).
  - unfold in_bounds, SetTag_fields in *.
    destruct (decide (currTag a ≠ target cb)) as [Hne|Heq]; simpl.
    + destruct (Htarget cb) as (frames & -> & Hnil). simpl.
      destruct frames; [congruence|]. unfold len. simpl. lia.
    + apply dec_stable in Heq. now rewrite <- Heq.
Qed.

Lemma Restart_then_idle_Update_witness :
  ∃ s1,
    Restart 1 Examples.resting = Ok s1 ∧
    animations s1 !! 1%positive = Some (Examples.playing "" 0 5) ∧
    ∀ fuel, Update run_nothing (S fuel) 1 s1 = ([], Ok s1).
Proof.
  destruct (Restart_then_idle_Update run_nothing 1 Examples.resting
              (Examples.playing "" 1 5) eq_refl)
    as (s1 & Hrestart & Ha & _ & _ & _ & _ & _ & Hidle).
  exists s1. split; [exact Hrestart|]. split; [exact Ha|].
  apply Hidle.
  - reflexivity.
  - vm_compute. split; discriminate.
  - right. exists (Examples.ms 10). split; [reflexivity|]. simpl. lia.
Defined.

(** C5 as stated does not hold. Create an animation over a 10 ms frame
    followed by a 100 ms frame and let 60 ms pass: it rests on the second
    frame with 50 ms accumulated. After [Restart], an [Update] with no time
    elapsed moves it back to the second frame and lowers the accumulated time
    to 40 ms. *)
Lemma idle_Update_after_Restart_moves :
  let tbl := Examples.short_then_long in
  NewAnimation (Some 1%positive) Examples.before_creation
    = (Some 1%positive, Examples.player tbl ∅ "" 0 0 60) ∧
  snd (Update run_nothing 5 1 (Examples.player tbl ∅ "" 0 0 60))
    = Ok (Examples.player tbl ∅ "" 1 50 60) ∧
  UpdateClock 0 (Examples.player tbl ∅ "" 1 50 60)
    = Examples.player tbl ∅ "" 1 50 0 ∧
  Restart 1 (Examples.player tbl ∅ "" 1 50 0)
    = Ok (Examples.player tbl ∅ "" 0 50 0) ∧
  snd (Update run_nothing 5 1 (Examples.player tbl ∅ "" 0 50 0))
    = Ok (Examples.player tbl ∅ "" 1 40 0) ∧
  Examples.player tbl ∅ "" 1 40 0 ≠ Examples.player tbl ∅ "" 0 50 0.
Proof.
  repeat split; try (vm_compute; reflexivity).
  intros Heq.
  assert (animations (Examples.player Examples.short_then_long ∅ "" 1 40 0)
            !! 1%positive
          = animations (Examples.player Examples.short_then_long ∅ "" 0 50 0)
            !! 1%positive) as H by now rewrite Heq.
  vm_compute in H. discriminate.
Qed.

Lemma Clone_shares_frames_only_witness :
  ∃ p' c' s' a',
    Clone 1 Examples.looping = Ok (p', s') ∧
    p' ≠ 1%positive ∧ c' ≠ 1%positive ∧
    animations s' !! p' = Some a' ∧
    animations s' !! 1%positive = Some (Examples.playing "" 0 0) ∧
    framesByTagName a' = Some 1%positive ∧
    frameTables s' = frameTables Examples.looping ∧
    callbacks a' = Some c' ∧
    callbackTables s' !! c' = Some {[ "" := Some 7%nat ]} ∧
    accumMillis a' = 0 ∧
    ∀ fuel s'',
      snd (Update run_nothing fuel p' s') = Ok s'' →
      animations s'' !! 1%positive = Some (Examples.playing "" 0 0).
Proof.
  destruct (Clone_shares_frames_only run_nothing 1 Examples.looping
              (Examples.playing "" 0 0) eq_refl)
    as (p' & s' & a' & Hclone & _ & Hp & Ha' & Ha & Hframes & Htables
        & _ & _ & _ & Hacc & _ & _ & _ & Hown & Hadvance).
  destruct (Hown 1%positive {[ "" := Some 7%nat ]} eq_refl eq_refl)
    as (c' & Hcbs & Hc & _ & Htbl & _).
  exists p', c', s', a'.
  split; [exact Hclone|]. split; [exact Hp|]. split; [exact Hc|].
  split; [exact Ha'|]. split; [exact Ha|]. split; [exact Hframes|].
  split; [exact Htables|]. split; [exact Hcbs|]. split; [exact Htbl|].
  split; [exact Hacc|].
  apply Hadvance. apply run_nothing_leaves_alone.
Defined.

(** C7 as stated does not hold. The callbacks of the clone are the function
    values of the source: an end callback that is a closure over the source
    and restarts it runs when the clone's sequence ends, and moves the
    source's frame index from 1 to 0. And the clone of a zero-value animation,
    whose callback map is nil, has no callback table of its own: its map is
    nil as well, and [OnEnd] on it panics. *)
Lemma clone_callback_writes_source :
  (∃ p' s' s'',
     Clone 1 Examples.source_on_frame_1 = Ok (p', s') ∧
     snd (Update (run_Restart 1) 20 p' s') = Ok s'' ∧
     currFrame <$> animations s' !! 1%positive = Some 1 ∧
     currFrame <$> animations s'' !! 1%positive = Some 0) ∧
  (∃ p' s' a',
     Clone 1 Examples.zero_value = Ok (p', s') ∧
     animations s' !! p' = Some a' ∧ callbacks a' = None ∧
     callbackTables s' = ∅ ∧
     OnEnd "" None p' s' = Panic).
Proof.
  split.
  - eexists _, _, _. split; [vm_compute; reflexivity|].
    split; [vm_compute; reflexivity|].
    split; vm_compute; reflexivity.
  - eexists _, _, _. split; [vm_compute; reflexivity|].
    split; [vm_compute; reflexivity|].
    split; [reflexivity|]. split; vm_compute; reflexivity.
Qed.

Lemma to_b_targets_exist :
  ∀ cb, ∃ frames,
    Examples.two_tags !! Examples.to_b cb = Some frames ∧ frames ≠ [].
Proof. intros cb. eexists. split; [reflexivity | discriminate]. Qed.

Lemma SetTag_in_callback_redirects_loop_witness :
  let run := run_SetTag Examples.to_b in
  (∃ s2,
     Update_loop run 11 1 Examples.switching_started
       = (Advanced s2 :: Called 0 s2
            :: fst (Update_loop run 10 1 Examples.switched),
          snd (Update_loop run 10 1 Examples.switched))) ∧
  plays Examples.switched 1 Examples.two_tags Examples.switched_animation ∧
  Forall (λ e, ∃ a', plays (event_store e) 1 Examples.two_tags a')
         (fst (Update_loop run 10 1 Examples.switched)) ∧
  snd (Update_loop run 10 1 Examples.switched) ≠ Panic.
Proof.
  intros run.
  destruct (SetTag_in_callback_redirects_loop run Examples.two_tags
              1 Examples.switching_started (Examples.playing "a" 0 250)
              (Examples.ms 10) 0%nat "b") with (fuel := 10%nat)
    as (Hloop & Hplay & _ & _ & Htrace & Hpanic & _).
  - evaluate.
  - apply run_SetTag_well_behaved, to_b_targets_exist.
  - reflexivity.
  - split; [reflexivity|]. split; [reflexivity|]. evaluate.
  - reflexivity.
  - simpl. lia.
  - reflexivity.
  - reflexivity.
  - discriminate.
  - split; [exact Hloop|]. split; [exact Hplay|]. split; assumption.
Defined.

(** 250 ms on tag "a" (one frame of 10 ms) whose end callback switches to
    tag "b" (two frames of 100 ms): after the first crossing the loop goes
    on with the frames of "b" and stops there with 40 ms left. *)
Example switching_continues_on_new_tag :
  snd (Update (run_SetTag Examples.to_b) 10 1 Examples.switching)
    = Ok (Examples.player Examples.two_tags {[ "a" := Some 0%nat ]}
            "b" 0 40 250).
Proof. vm_compute. reflexivity. Qed.

(** *** Further properties of the playback operations *)

Section Controls.

Variable run : CallbackId → loc → Store → result Store.

(** Once a run of the loop has ended (by returning or by panicking), more
    fuel changes nothing. *)
Lemma Update_loop_fuel_mono p fuel fuel' s :
  snd (Update_loop run fuel p s) ≠ Timeout → (fuel ≤ fuel')%nat →
  Update_loop run fuel' p s = Update_loop run fuel p s.
Proof.
  revert fuel' s. induction fuel as [|fuel IH]; intros fuel' s Hend Hle.
  { now destruct Hend. }
  destruct fuel' as [|fuel']; [lia|].
  rewrite !Update_loop_S in *.
  destruct (animations s !! p) as [a|]; [|reflexivity].
  destruct (index _ _) as [fr|]; [|reflexivity].
  destruct (bool_decide _); [|reflexivity].
  cbv zeta in *. destruct (skips_callback _ _).
  - simpl in Hend. now rewrite (IH fuel' _ Hend) by lia.
  - destruct (callback_at _ _ _) as [cb|]; [|reflexivity].
    destruct (run cb p _) as [s3| |]; try reflexivity.
    simpl in Hend. now rewrite (IH fuel' _ Hend) by lia.
Qed.

(** X1. [Pause], [Resume] and [Toggle] write nothing but the paused flag of
    the receiver. [Toggle] twice gives back the store it started from;
    [Toggle] is [Pause] on a running animation and [Resume] on a paused one;
    [Pause] followed by [Resume] gives back the store of a running
    animation. *)
Theorem Toggle_twice_restores p s a :
  animations s !! p = Some a →
  (∃ s1, Toggle p s = Ok s1 ∧ Toggle p s1 = Ok s ∧
         animations s1 !! p = Some (set_paused (negb (paused a)) a)) ∧
  (paused a = false → Toggle p s = Pause p s) ∧
  (paused a = true → Toggle p s = Resume p s) ∧
  (paused a = false →
   ∃ s1, Pause p s = Ok s1 ∧ Resume p s1 = Ok s ∧ Pause p s1 = Ok s1).
Proof.
  intros Ha. unfold Toggle, Pause, Resume, on_receiver. rewrite Ha.
  split; [|split; [|split]].
  - eexists. split; [reflexivity|]. rewrite lookup_store_animation.
    split; [|reflexivity]. f_equal. rewrite store_animation_twice.
    replace (Toggle_fields (Toggle_fields a)) with a
      by (destruct a as [[] ? ? ? ? ? ?]; reflexivity).
    now apply store_animation_same.
  - intros Hp. unfold Toggle_fields, Pause_fields. now rewrite Hp.
  - intros Hp. unfold Toggle_fields, Resume_fields. now rewrite Hp.
  - intros Hp. eexists. split; [reflexivity|].
    rewrite lookup_store_animation, !store_animation_twice.
    unfold Resume_fields, Pause_fields.
    split; [|reflexivity]. f_equal.
    replace (set_paused false (set_paused true a)) with a
      by (destruct a; simpl in *; now subst).
    now apply store_animation_same.
Qed.

Lemma SetTag_fields_keeps tag a :
  paused (SetTag_fields tag a) = paused a ∧
  framesByTagName (SetTag_fields tag a) = framesByTagName a ∧
  currTag (SetTag_fields tag a) = tag ∧
  accumMillis (SetTag_fields tag a) = accumMillis a ∧
  callbacks (SetTag_fields tag a) = callbacks a ∧
  Source (SetTag_fields tag a) = Source a ∧
  currFrame (SetTag_fields tag a)
    = if decide (currTag a ≠ tag) then 0 else currFrame a.
Proof. unfold SetTag_fields. destruct (decide _); repeat split. Qed.

Lemma UpdateClock_store_animation p a b d s :
  store_animation p a (UpdateClock d (store_animation p b s))
    = UpdateClock d (store_animation p a s).
Proof.
  unfold store_animation, UpdateClock. simpl. now rewrite insert_insert_eq.
Qed.

(** X2. A paused animation ignores [Update]: whatever time has elapsed, the
    call returns at once and leaves the store as it is, so the time spent
    paused is never added to the accumulated time; after [Resume] the
    animation is as it was before [Pause], running. *)
Theorem Pause_stops_the_clock p s a :
  animations s !! p = Some a →
  ∃ s1,
    Pause p s = Ok s1 ∧
    (∀ fuel d,
       Update run fuel p (UpdateClock d s1) = ([], Ok (UpdateClock d s1))) ∧
    (∀ d,
       Resume p (UpdateClock d s1)
         = Ok (UpdateClock d (store_animation p (set_paused false a) s))).
Proof.
  intros Ha. exists (store_animation p (Pause_fields a) s).
  split; [unfold Pause, on_receiver; now rewrite Ha|]. split.
  - intros fuel d. unfold Update.
    change (animations (UpdateClock d (store_animation p (Pause_fields a) s)))
      with (animations (store_animation p (Pause_fields a) s)).
    now rewrite lookup_store_animation.
  - intros d. unfold Resume, on_receiver.
    change (animations (UpdateClock d (store_animation p (Pause_fields a) s)))
      with (animations (store_animation p (Pause_fields a) s)).
    rewrite lookup_store_animation, UpdateClock_store_animation.
    reflexivity.
Qed.

(** X3. [SetTag] with the current tag changes nothing; [SetTag] with the
    same tag twice is [SetTag] once; [SetTag] with another tag puts the index
    at 0, and switching back puts it at 0 again rather than where it was. *)
Theorem SetTag_resets_index p s a tag :
  animations s !! p = Some a →
  SetTag (currTag a) p s = Ok s ∧
  ∃ s1,
    SetTag tag p s = Ok s1 ∧ SetTag tag p s1 = Ok s1 ∧
    (tag ≠ currTag a →
     animations s1 !! p
       = Some (mkAnimation (paused a) (framesByTagName a) tag 0
                 (accumMillis a) (callbacks a) (Source a)) ∧
     ∃ s2, SetTag (currTag a) p s1 = Ok s2 ∧
           animations s2 !! p = Some (set_currFrame 0 a)).
Proof.
  intros Ha. unfold SetTag, on_receiver. rewrite Ha. split.
  - f_equal. apply store_animation_same. rewrite Ha. f_equal.
    unfold SetTag_fields. destruct (decide _) as [Hne|_]; [congruence|].
    now destruct a.
  - exists (store_animation p (SetTag_fields tag a) s).
    split; [reflexivity|]. rewrite lookup_store_animation.
    rewrite store_animation_twice. split.
    + do 2 f_equal. unfold SetTag_fields at 1.
      destruct (SetTag_fields_keeps tag a) as (_ & _ & Htag & _).
      rewrite Htag. destruct (decide (tag ≠ tag)) as [Hne|_]; [congruence|].
      unfold SetTag_fields. now destruct (decide _).
    + intros Hne. split.
      * f_equal. unfold SetTag_fields.
        destruct (decide (currTag a ≠ tag)) as [_|Hn];
          [reflexivity | exfalso; apply Hn; congruence].
      * eexists. split; [reflexivity|]. rewrite store_animation_twice.
        rewrite lookup_store_animation. f_equal.
        unfold SetTag_fields.
        destruct (decide (currTag a ≠ tag)) as [_|Hn];
          [|exfalso; apply Hn; congruence].
        simpl. destruct (decide (tag ≠ currTag a)) as [_|Hn];
          [|exfalso; apply Hn; congruence].
        reflexivity.
Qed.

(** X4. [SetTag] does not check the tag: with a tag that has no frames it
    succeeds all the same, and the next [Update] panics on its first frame
    read if the animation is running, while a paused animation still returns
    at once. *)
Theorem SetTag_is_not_checked p s a tag :
  animations s !! p = Some a → frames_at s a tag = [] →
  ∃ s1,
    SetTag tag p s = Ok s1 ∧
    (paused a = false → ∀ fuel, Update run (S fuel) p s1 = ([], Panic)) ∧
    (paused a = true → ∀ fuel, Update run fuel p s1 = ([], Ok s1)).
Proof.
  intros Ha Hempty. exists (store_animation p (SetTag_fields tag a) s).
  split; [unfold SetTag, on_receiver; now rewrite Ha|].
  destruct (SetTag_fields_keeps tag a) as (Hp & Hf & Ht & _).
  unfold Update. rewrite lookup_store_animation, Hp. split.
  - intros -> fuel. rewrite Update_loop_S, lookup_store_animation.
    set (a1 := set_accumMillis _ _).
    assert (frames_at (store_animation p a1 (store_animation p
                         (SetTag_fields tag a) s)) a1 (currTag a1) = [])
      as ->.
    { change (currTag a1) with (currTag (SetTag_fields tag a)).
      rewrite Ht. unfold frames_at in *.
      change (framesByTagName a1)
        with (framesByTagName (SetTag_fields tag a)).
      rewrite Hf. exact Hempty. }
    unfold index. now destruct (decide _).
  - intros -> fuel. reflexivity.
Qed.

(** [OnEnd] on an animation that has a callback table: the callback is read
    back, and no animation is written. *)
Lemma OnEnd_read_back p s a c cbs tag cb :
  animations s !! p = Some a →
  callbacks a = Some c → callbackTables s !! c = Some cbs →
  ∃ s1,
    OnEnd tag cb p s = Ok s1 ∧ callback_at s1 a tag = cb ∧
    animations s1 = animations s.
Proof.
  intros Ha Hc Hcbs. unfold OnEnd. rewrite Ha, Hc, Hcbs.
  eexists. split; [reflexivity|]. split; [|reflexivity].
  unfold callback_at. rewrite Hc. simpl. rewrite lookup_insert_eq.
  now rewrite lookup_insert_eq.
Qed.

(** X5. [OnEnd] on an animation whose callback map is nil panics. Otherwise
    it succeeds, the callback read back for the tag is the one just
    registered, the callbacks of all other tags are as before, no animation
    and no frame table is written, and a later registration for the same tag
    replaces the earlier one. *)
Theorem OnEnd_registers p s a :
  animations s !! p = Some a →
  (callbacks a = None → ∀ tag cb, OnEnd tag cb p s = Panic) ∧
  (∀ c cbs,
     callbacks a = Some c → callbackTables s !! c = Some cbs →
     ∀ tag cb,
       ∃ s1,
         OnEnd tag cb p s = Ok s1 ∧
         callback_at s1 a tag = cb ∧
         (∀ tag', tag' ≠ tag → callback_at s1 a tag' = callback_at s a tag') ∧
         animations s1 = animations s ∧ frameTables s1 = frameTables s ∧
         (∀ cb', OnEnd tag cb' p s1 = OnEnd tag cb' p s)).
Proof.
  intros Ha. split.
  - intros Hnil tag cb. unfold OnEnd. now rewrite Ha, Hnil.
  - intros c cbs Hc Hcbs tag cb. unfold OnEnd. rewrite Ha, Hc, Hcbs.
    eexists. split; [reflexivity|].
    unfold callback_at. rewrite Hc. simpl. rewrite lookup_insert_eq, Hcbs.
    split; [now rewrite lookup_insert_eq|].
    split; [intros tag' Hne; now rewrite lookup_insert_ne|].
    do 2 (split; [reflexivity|]).
    intros cb'. rewrite Ha, Hc, lookup_insert_eq. f_equal.
    unfold store_callbackTable. simpl.
    now rewrite !insert_insert_eq.
Qed.

(** As long as no callback is registered for the current tag, the loop calls
    nothing, whatever the callbacks would do. *)
Lemma Update_loop_no_callback p fuel s a :
  animations s !! p = Some a → callback_at s a (currTag a) = None →
  Update_loop run fuel p s = Update_loop run_nothing fuel p s ∧
  calls (fst (Update_loop run fuel p s)) = 0%nat.
Proof.
  revert s a. induction fuel as [|fuel IH]; intros s a Ha Hnone.
  { split; reflexivity. }
  rewrite !Update_loop_S, Ha.
  destruct (index _ _) as [fr|]; [|split; reflexivity].
  destruct (bool_decide _); [|split; reflexivity].
  cbv zeta. set (a2 := advance_frame s a fr).
  assert (callback_at (store_animation p a2 s) a2 (currTag a2) = None)
    as Hnone2 by exact Hnone.
  assert (skips_callback (store_animation p a2 s) a2 = true) as ->.
  { unfold skips_callback. rewrite Hnone2.
    rewrite (bool_decide_eq_true_2 (None = None)) by reflexivity.
    apply orb_true_r. }
  destruct (IH _ a2 (lookup_store_animation p a2 s) Hnone2) as [-> Hcalls].
  split; [reflexivity|]. cbn [fst]. unfold calls in *.
  rewrite filter_cons. simpl. exact Hcalls.
Qed.

(** X6. A callback registered for the current tag is called as soon as
    [Update] crosses the last frame of the sequence. [OnEnd(tag, nil)] on the
    current tag switches it off: the following [Update] calls no callback at
    all, however many times the sequence is completed, and proceeds exactly
    as if callbacks did nothing. *)
Theorem OnEnd_nil_disables p s a c cbs :
  animations s !! p = Some a →
  callbacks a = Some c → callbackTables s !! c = Some cbs →
  (∀ tbl cb fr fuel,
     lengths_fit tbl → plays s p tbl a → paused a = false →
     cbs !! currTag a = Some (Some cb) →
     index (frames_at s a (currTag a)) (currFrame a) = Some fr →
     currFrame a + 1 = len (frames_at s a (currTag a)) →
     wrap64 (accumMillis a + DeltaMillis s) > DurationMillis fr →
     ∃ s2 rest,
       fst (Update run (S fuel) p s) = Advanced s2 :: Called cb s2 :: rest) ∧
  ∃ s1,
    OnEnd (currTag a) None p s = Ok s1 ∧
    ∀ fuel,
      calls (fst (Update run fuel p s1)) = 0%nat ∧
      Update run fuel p s1 = Update run_nothing fuel p s1.
Proof.
  intros Ha Hc Hcbs. split.
  - intros tbl cb fr fuel Hfit Hplay Hp Hcb Hfr Hlast Hgt.
    pose proof Hplay as (_ & Htbl & Hb).
    destruct (in_bounds_sequence tbl a Hb) as (frames & fr' & Hseq & _).
    unfold in_bounds in Hb. rewrite Hseq in Hb. simpl in Hb.
    rewrite (frames_at_table s a tbl _ Htbl), Hseq in Hlast.
    change (default [] (Some frames)) with frames in Hlast.
    unfold Update. rewrite Ha, Hp.
    set (a1 := set_accumMillis (wrap64 (accumMillis a + DeltaMillis s)) a).
    set (s1 := store_animation p a1 s).
    rewrite Update_loop_S.
    assert (animations s1 !! p = Some a1) as Ha1
      by apply lookup_store_animation.
    rewrite Ha1.
    change (frames_at s1 a1 (currTag a1)) with (frames_at s a (currTag a)).
    change (currFrame a1) with (currFrame a). rewrite Hfr.
    rewrite bool_decide_eq_true_2 by exact Hgt. cbv zeta.
    assert (table_of s1 a1 = Some tbl) as Htbl1 by exact Htbl.
    rewrite (advance_frame_spec tbl s1 a1 frames fr Hfit Htbl1 Hseq Hb).
    change (currFrame a1) with (currFrame a).
    rewrite decide_True by exact Hlast.
    set (a2 := mkAnimation _ _ _ _ _ _ _).
    set (s2 := store_animation p a2 s1).
    assert (callback_at s2 a2 (currTag a2) = Some cb) as Hcall.
    { unfold callback_at. change (callbacks a2) with (callbacks a).
      rewrite Hc. change (callbackTables s2) with (callbackTables s).
      rewrite Hcbs. change (currTag a2) with (currTag a).
      now rewrite Hcb. }
    assert (skips_callback s2 a2 = false) as ->.
    { unfold skips_callback. rewrite Hcall.
      apply orb_false_iff. split; apply bool_decide_eq_false_2.
      - intros Hne. now apply Hne.
      - discriminate. }
    rewrite Hcall.
    destruct (run cb p s2) as [s3| |]; cbn [fst]; eauto.
  - destruct (OnEnd_read_back p s a c cbs (currTag a) None Ha Hc Hcbs)
      as (s1 & Honend & Hread & Hanims).
    exists s1. split; [exact Honend|]. intros fuel. unfold Update.
    rewrite Hanims, Ha. destruct (paused a); [split; reflexivity|].
    set (a1 := set_accumMillis _ a).
    destruct (Update_loop_no_callback p fuel (store_animation p a1 s1) a1
                (lookup_store_animation p a1 s1) Hread) as [Heq Hcalls].
    split; [exact Hcalls | exact Heq].
Qed.

(** Callbacks that leave the store as they found it (they act on the rest of
    the program only). *)
Lemma inert_well_behaved p tbl :
  (∀ c q s0, run c q s0 = Ok s0) → well_behaved run p tbl.
Proof.
  intros Hrun cb s a Hplay. exists s, a.
  split; [apply Hrun|]. split; [exact Hplay|]. split; [lia | tauto].
Qed.

Lemma Update_loop_writes_index_and_time p fuel s a s' :
  (∀ c q s0, run c q s0 = Ok s0) →
  animations s !! p = Some a →
  snd (Update_loop run fuel p s) = Ok s' →
  ∃ frame accum,
    s' = store_animation p
           (mkAnimation (paused a) (framesByTagName a) (currTag a) frame
              accum (callbacks a) (Source a)) s.
Proof.
  intros Hrun. revert s a. induction fuel as [|fuel IH]; intros s a Ha;
    [discriminate|].
  rewrite Update_loop_S, Ha.
  destruct (index _ _) as [fr|]; [|discriminate].
  destruct (bool_decide _).
  - cbv zeta. set (a2 := advance_frame s a fr).
    assert (snd (Update_loop run fuel p (store_animation p a2 s)) = Ok s' →
            ∃ frame accum,
              s' = store_animation p
                     (mkAnimation (paused a) (framesByTagName a) (currTag a)
                        frame accum (callbacks a) (Source a)) s) as Hnext.
    { intros Hr.
      destruct (IH _ a2 (lookup_store_animation p a2 s) Hr)
        as (frame & accum & ->).
      exists frame, accum. now rewrite store_animation_twice. }
    destruct (skips_callback _ _); [exact Hnext|].
    destruct (callback_at _ _ _) as [cb|]; [|discriminate].
    rewrite Hrun. exact Hnext.
  - intros [= <-]. exists (currFrame a), (accumMillis a).
    symmetry. apply store_animation_same. rewrite Ha. now destruct a.
Qed.

(** The same for a whole call of [Update]. *)
Lemma Update_inert_writes p fuel s a s' :
  (∀ c q s0, run c q s0 = Ok s0) →
  animations s !! p = Some a →
  snd (Update run fuel p s) = Ok s' →
  ∃ frame accum,
    s' = store_animation p
           (mkAnimation (paused a) (framesByTagName a) (currTag a) frame
              accum (callbacks a) (Source a)) s.
Proof.
  intros Hrun Ha. unfold Update. rewrite Ha. destruct (paused a) eqn:Hp.
  - intros [= <-]. exists (currFrame a), (accumMillis a).
    symmetry. apply store_animation_same. rewrite Ha, <- Hp. now destruct a.
  - intros Hr.
    destruct (Update_loop_writes_index_and_time p fuel _ _ s' Hrun
                (lookup_store_animation p _ s) Hr) as (frame & accum & ->).
    exists frame, accum. rewrite store_animation_twice. now rewrite <- Hp.
Qed.

(** X7. With callbacks that leave the store alone, a call of [Update] that
    returns has written nothing but the frame index and the accumulated time
    of its receiver: the tag, the paused flag, the two map references, every
    other animation, the tables and the clock are as before. If the
    animation is running, the accumulated time it is left with does not
    exceed the duration of the frame it is left on. *)
Theorem Update_writes_index_and_time_only p fuel s a s' :
  (∀ c q s0, run c q s0 = Ok s0) →
  animations s !! p = Some a →
  snd (Update run fuel p s) = Ok s' →
  ∃ frame accum,
    s' = store_animation p
           (mkAnimation (paused a) (framesByTagName a) (currTag a) frame
              accum (callbacks a) (Source a)) s ∧
    (paused a = false →
     ∃ fr,
       index (frames_at s a (currTag a)) frame = Some fr ∧
       accum <= DurationMillis fr).
Proof.
  intros Hrun Ha Hr.
  destruct (Update_inert_writes p fuel s a s' Hrun Ha Hr)
    as (frame & accum & Hs').
  exists frame, accum. split; [exact Hs'|]. intros Hp.
  unfold Update in Hr. rewrite Ha, Hp in Hr.
  pose proof (Update_loop_whole run fuel p
                (store_animation p
                   (set_accumMillis
                      (wrap64 (accumMillis a + DeltaMillis s)) a) s)) as Hw.
  rewrite Hr in Hw. destruct Hw as [_ (a' & fr & Ha' & Hfr & Hle)].
  rewrite Hs', lookup_store_animation in Ha'. injection Ha' as <-.
  exists fr. split; [|exact Hle].
  rewrite Hs' in Hfr. exact Hfr.
Qed.

(** Frames of one duration [D]: where the loop stops. *)
Lemma Update_loop_uniform tbl p D :
  lengths_fit tbl → 0 < D → (∀ c q s0, run c q s0 = Ok s0) →
  ∀ fuel s a frames,
    plays s p tbl a → tbl !! currTag a = Some frames →
    Forall (λ fr, DurationMillis fr = D) frames →
    accumMillis a <= int64_max →
    (0 < fuel)%nat → accumMillis a < Z.of_nat fuel →
    let j := Z.max 0 ((accumMillis a - 1) / D) in
    snd (Update_loop run fuel p s)
      = Ok (store_animation p
              (mkAnimation (paused a) (framesByTagName a) (currTag a)
                 ((currFrame a + j) mod len frames)
                 (accumMillis a - j * D) (callbacks a) (Source a)) s).
Proof.
  intros Hfit HD Hrun.
  induction fuel as [|fuel IH];
    intros s a frames Hplay Hseq Hall Hmax Hfuel Hlt j; [lia|].
  subst j. rewrite Update_loop_S.
  pose proof Hplay as (Ha & Htbl & Hb).
  unfold in_bounds in Hb. rewrite Hseq in Hb. simpl in Hb.
  destruct (proj2 (index_in_range frames (currFrame a)) Hb) as [fr Hfr].
  rewrite Ha, (frames_at_table s a tbl _ Htbl), Hseq.
  change (default [] (Some frames)) with frames. rewrite Hfr.
  assert (DurationMillis fr = D) as Hdur.
  { apply index_Some in Hfr as [_ Hfr].
    exact (Forall_lookup_1 _ _ _ _ Hall Hfr). }
  rewrite Hdur.
  case_bool_decide as Hgt.
  - cbv zeta.
    pose proof (crossing_plays s p tbl a fr Hfit Hplay) as Hplay2.
    rewrite (advance_frame_spec tbl s a frames fr Hfit Htbl Hseq Hb) in *.
    rewrite Hdur in *.
    set (a2 := mkAnimation _ _ _ _ _ _ _) in *.
    set (s2 := store_animation p a2 s) in *.
    assert (accumMillis a2 = accumMillis a - D) as Hacc2.
    { unfold a2. simpl. apply wrap64_id.
      unfold in_int64, int64_min, int64_max in *. lia. }
    assert ((accumMillis a - D - 1) / D = (accumMillis a - 1) / D - 1)
      as Hj.
    { replace (accumMillis a - D - 1) with (accumMillis a - 1 + (-1) * D)
        by lia.
      rewrite Z.div_add by lia. lia. }
    assert (1 <= (accumMillis a - 1) / D) as Hj1
      by (apply Z.div_le_lower_bound; lia).
    assert (snd (Update_loop run fuel p s2)
              = Ok (store_animation p
                      (mkAnimation (paused a) (framesByTagName a) (currTag a)
                         ((currFrame a + (accumMillis a - 1) / D)
                            mod len frames)
                         (accumMillis a - (accumMillis a - 1) / D * D)
                         (callbacks a) (Source a)) s)) as Hrest.
    { rewrite (IH s2 a2 frames Hplay2 Hseq Hall) by lia.
      unfold s2. rewrite store_animation_twice. do 2 f_equal.
      rewrite Hacc2, Hj, Z.max_r by lia.
      change (paused a2) with (paused a).
      change (framesByTagName a2) with (framesByTagName a).
      change (currTag a2) with (currTag a).
      change (callbacks a2) with (callbacks a).
      change (Source a2) with (Source a).
      f_equal; [|lia].
      change (currFrame a2)
        with (if decide (currFrame a + 1 = len frames) then 0
              else currFrame a + 1).
      destruct (decide (currFrame a + 1 = len frames)) as [Hlast|Hmid].
      - replace (currFrame a + (accumMillis a - 1) / D)
          with (0 + ((accumMillis a - 1) / D - 1) + 1 * len frames) by lia.
        now rewrite Z_mod_plus_full.
      - f_equal. lia. }
    rewrite Z.max_r by lia.
    destruct (skips_callback s2 a2) eqn:Hs; [exact Hrest|].
    destruct (callback_at s2 a2 (currTag a2)) as [cb|] eqn:Hcb.
    + rewrite Hrun. exact Hrest.
    + unfold skips_callback in Hs. rewrite Hcb in Hs.
      rewrite (bool_decide_eq_true_2 (None = None)) in Hs by reflexivity.
      now rewrite orb_true_r in Hs.
  - simpl.
    assert ((accumMillis a - 1) / D <= 0) as Hj0.
    { assert ((accumMillis a - 1) / D < 1); [|lia].
      apply Z.div_lt_upper_bound; lia. }
    rewrite Z.max_l by lia. rewrite Z.add_0_r, Z.mod_small by lia.
    f_equal. symmetry. apply store_animation_same. rewrite Ha. f_equal.
    destruct a. simpl. f_equal. lia.
Qed.

(** X8. Frames of one duration [D] and callbacks that leave the store
    alone: with [T] the accumulated time plus the time elapsed, [Update]
    crosses [j = max 0 ((T - 1) / D)] frame boundaries; it stops on frame
    [(currFrame + j) mod N] of the [N] frames with [T - j * D] milliseconds
    left, and writes nothing else. *)
Theorem Update_uniform_position tbl p D s a frames :
  lengths_fit tbl → 0 < D → (∀ c q s0, run c q s0 = Ok s0) →
  plays s p tbl a → paused a = false →
  tbl !! currTag a = Some frames →
  Forall (λ fr, DurationMillis fr = D) frames →
  0 <= accumMillis a → 0 <= DeltaMillis s →
  accumMillis a + DeltaMillis s <= int64_max →
  ∀ fuel,
    accumMillis a + DeltaMillis s < Z.of_nat fuel →
    let T := accumMillis a + DeltaMillis s in
    let j := Z.max 0 ((T - 1) / D) in
    snd (Update run fuel p s)
      = Ok (store_animation p
              (mkAnimation false (framesByTagName a) (currTag a)
                 ((currFrame a + j) mod len frames) (T - j * D)
                 (callbacks a) (Source a)) s).
Proof.
  intros Hfit HD Hrun Hplay Hp Hseq Hall Hacc Hdelta Hsum fuel Hfuel T j.
  pose proof Hplay as (Ha & Htbl & Hb).
  unfold Update. rewrite Ha, Hp.
  set (a1 := set_accumMillis (wrap64 (accumMillis a + DeltaMillis s)) a).
  assert (accumMillis a1 = T) as Hacc1.
  { unfold a1. simpl. apply wrap64_id.
    unfold in_int64, int64_min, int64_max in *. lia. }
  rewrite (Update_loop_uniform tbl p D Hfit HD Hrun fuel _ a1 frames).
  - rewrite store_animation_twice, Hacc1.
    change (paused a1) with (paused a). now rewrite Hp.
  - split; [apply lookup_store_animation|]. split; assumption.
  - exact Hseq.
  - exact Hall.
  - lia.
  - lia.
  - lia.
Qed.

Lemma Update_loop_with_clock p total delta fuel s s' :
  (∀ c q s0, run c q s0 = Ok s0) →
  snd (Update_loop run fuel p s) = Ok s' →
  snd (Update_loop run fuel p (with_clock total delta s))
    = Ok (with_clock total delta s').
Proof.
  intros Hrun. revert s. induction fuel as [|fuel IH]; intros s;
    [discriminate|].
  rewrite !Update_loop_S.
  change (animations (with_clock total delta s)) with (animations s).
  destruct (animations s !! p) as [a|]; [|discriminate].
  change (frames_at (with_clock total delta s) a (currTag a))
    with (frames_at s a (currTag a)).
  destruct (index _ _) as [fr|]; [|discriminate].
  destruct (bool_decide _); [|intros [= <-]; reflexivity].
  cbv zeta.
  change (advance_frame (with_clock total delta s) a fr)
    with (advance_frame s a fr).
  set (a2 := advance_frame s a fr).
  change (store_animation p a2 (with_clock total delta s))
    with (with_clock total delta (store_animation p a2 s)).
  set (s2 := store_animation p a2 s).
  change (skips_callback (with_clock total delta s2) a2)
    with (skips_callback s2 a2).
  change (callback_at (with_clock total delta s2) a2 (currTag a2))
    with (callback_at s2 a2 (currTag a2)).
  destruct (skips_callback s2 a2); [apply IH|].
  destruct (callback_at s2 a2 (currTag a2)) as [cb|]; [|discriminate].
  rewrite !Hrun. apply IH.
Qed.

(** Working off the accumulated time and then [d] more milliseconds comes to
    the same as working off both at once. *)
Lemma Update_loop_add tbl p d :
  lengths_fit tbl → durations_positive tbl →
  (∀ c q s0, run c q s0 = Ok s0) → 0 <= d →
  ∀ f1 s a s1 a1,
    plays s p tbl a → accumMillis a + d <= int64_max →
    snd (Update_loop run f1 p s) = Ok s1 →
    animations s1 !! p = Some a1 →
    ∀ f2 s2,
      snd (Update_loop run f2 p (store_animation p (add_time d a1) s1))
        = Ok s2 →
      snd (Update_loop run (f1 + f2) p (store_animation p (add_time d a) s))
        = Ok s2.
Proof.
  intros Hfit Hpos Hrun Hd.
  induction f1 as [|f1 IH]; intros s a s1 a1 Hplay Hmax; [discriminate|].
  pose proof Hplay as (Ha & Htbl & Hb).
  destruct (in_bounds_sequence tbl a Hb) as (frames & fr & Hseq & Hfr).
  rewrite Update_loop_S, Ha, (frames_at_table s a tbl _ Htbl), Hseq.
  change (default [] (Some frames)) with frames. rewrite Hfr.
  assert (0 < DurationMillis fr) as Hdur.
  { apply index_Some in Hfr as [_ Hfr'].
    exact (Forall_lookup_1 _ _ _ _ (Hpos _ _ Hseq) Hfr'). }
  case_bool_decide as Hgt.
  - cbv zeta. intros Hr1 Ha1 f2 s2 Hr2.
    change (S f1 + f2)%nat with (S (f1 + f2)).
    rewrite Update_loop_S, lookup_store_animation.
    change (frames_at (store_animation p (add_time d a) s) (add_time d a)
              (currTag (add_time d a)))
      with (frames_at s a (currTag a)).
    rewrite (frames_at_table s a tbl _ Htbl), Hseq.
    change (default [] (Some frames)) with frames.
    change (currFrame (add_time d a)) with (currFrame a). rewrite Hfr.
    change (accumMillis (add_time d a)) with (accumMillis a + d).
    rewrite bool_decide_eq_true_2 by lia. cbv zeta.
    set (a2 := advance_frame s a fr) in *.
    assert (advance_frame (store_animation p (add_time d a) s)
              (add_time d a) fr = add_time d a2) as ->.
    { unfold a2, advance_frame, add_time.
      change (frames_at (store_animation p _ s) ?x ?t)
        with (frames_at s x t).
      simpl.
      rewrite (wrap64_id (accumMillis a + d - DurationMillis fr))
        by (unfold in_int64, int64_min, int64_max in *; lia).
      rewrite (wrap64_id (accumMillis a - DurationMillis fr))
        by (unfold in_int64, int64_min, int64_max in *; lia).
      unfold set_currFrame, set_accumMillis. simpl. f_equal. lia. }
    rewrite store_animation_twice.
    set (s2' := store_animation p a2 s) in *.
    assert (plays s2' p tbl a2) as Hplay2 by now apply crossing_plays.
    assert (accumMillis a2 + d <= int64_max) as Hmax2.
    { unfold a2, advance_frame. simpl.
      rewrite wrap64_id
        by (unfold in_int64, int64_min, int64_max in *; lia).
      lia. }
    assert (store_animation p (add_time d a2) s
              = store_animation p (add_time d a2) s2') as ->
      by (unfold s2'; now rewrite store_animation_twice).
    change (skips_callback (store_animation p (add_time d a2) s2')
              (add_time d a2))
      with (skips_callback s2' a2).
    change (callback_at (store_animation p (add_time d a2) s2')
              (add_time d a2) (currTag (add_time d a2)))
      with (callback_at s2' a2 (currTag a2)).
    destruct (skips_callback s2' a2).
    + simpl in Hr1 |- *. exact (IH s2' a2 s1 a1 Hplay2 Hmax2 Hr1 Ha1 f2 s2 Hr2).
    + destruct (callback_at s2' a2 (currTag a2)) as [cb|]; [|discriminate].
      rewrite Hrun in Hr1 |- *. simpl in Hr1 |- *.
      exact (IH s2' a2 s1 a1 Hplay2 Hmax2 Hr1 Ha1 f2 s2 Hr2).
  - intros [= <-] Ha1 f2 s2 Hr2. rewrite Ha in Ha1. injection Ha1 as <-.
    rewrite (Update_loop_fuel_mono p f2 (S f1 + f2)); [exact Hr2 | | lia].
    rewrite Hr2. discriminate.
Qed.

Lemma wrap64_add_wrap64 (x y : Z) : wrap64 (wrap64 x + y) = wrap64 (x + y).
Proof.
  unfold wrap64. f_equal.
  replace ((x + 2 ^ 63) mod 2 ^ 64 - 2 ^ 63 + y + 2 ^ 63)
    with ((x + 2 ^ 63) mod 2 ^ 64 + y) by lia.
  rewrite Zplus_mod_idemp_l. f_equal. lia.
Qed.

Lemma with_clock_own total delta s :
  with_clock (TotalMillis s) (DeltaMillis s) (with_clock total delta s) = s.
Proof. now destruct s. Qed.

(** Two calls after [d1] and [d2] milliseconds against one call after
    [d1 + d2], given that the two calls returned. *)
Lemma Update_adds_up_returned tbl p s0 a d1 d2 :
  lengths_fit tbl → durations_positive tbl →
  (∀ c q s, run c q s = Ok s) →
  plays s0 p tbl a → paused a = false →
  0 <= accumMillis a → 0 <= d1 → 0 <= d2 →
  accumMillis a + d1 + d2 <= int64_max →
  ∀ f1 f2 s1 s2,
    snd (Update run f1 p (UpdateClock d1 s0)) = Ok s1 →
    snd (Update run f2 p (UpdateClock d2 s1)) = Ok s2 →
    ∃ s12,
      snd (Update run (f1 + f2) p (UpdateClock (d1 + d2) s0)) = Ok s12 ∧
      animations s12 = animations s2 ∧
      frameTables s12 = frameTables s2 ∧
      callbackTables s12 = callbackTables s2 ∧
      TotalMillis s12 = TotalMillis s2.
Proof.
  intros Hfit Hpos Hrun Hplay Hp Hacc Hd1 Hd2 Hsum f1 f2 s1 s2 H1 H2.
  pose proof Hplay as (Ha & Htbl & Hb).
  set (T0 := TotalMillis s0). set (D0 := DeltaMillis s0).
  (* the first call, seen on the clock of [s0] *)
  set (L1 := store_animation p (add_time d1 a) s0).
  assert (plays L1 p tbl (add_time d1 a)) as HplayL1.
  { split; [apply lookup_store_animation|]. split; assumption. }
  pose proof (Update_inert_writes p f1 (UpdateClock d1 s0) a s1
                Hrun Ha H1) as (fr1 & acc1 & Hs1).
  assert (snd (Update_loop run f1 p L1) = Ok (with_clock T0 D0 s1)) as B1.
  { unfold Update in H1.
    change (animations (UpdateClock d1 s0)) with (animations s0) in H1.
    rewrite Ha, Hp in H1.
    change (DeltaMillis (UpdateClock d1 s0)) with d1 in H1.
    rewrite wrap64_id in H1
      by (unfold in_int64, int64_min, int64_max in *; lia).
    apply (Update_loop_with_clock p T0 D0) in H1; [|exact Hrun].
    replace L1 with
      (with_clock T0 D0
         (store_animation p (set_accumMillis (accumMillis a + d1) a)
            (UpdateClock d1 s0))); [exact H1|].
    unfold L1, T0, D0. destruct s0. reflexivity. }
  set (a1 := mkAnimation (paused a) (framesByTagName a) (currTag a) fr1 acc1
               (callbacks a) (Source a)) in *.
  assert (animations s1 !! p = Some a1) as Ha1
    by (rewrite Hs1; apply lookup_store_animation).
  assert (0 <= acc1 <= accumMillis a + d1) as Hacc1.
  { destruct (Update_loop_returns run tbl p Hfit Hpos
                (inert_well_behaved p tbl Hrun)
                (f1 + S (Z.to_nat (accumMillis a + d1))) L1 (add_time d1 a)
                HplayL1)
      as (s' & a' & _ & Hr & (Ha' & _) & _ & _ & Hle & Hnn).
    - simpl. lia.
    - lia.
    - simpl. lia.
    - rewrite (Update_loop_fuel_mono p f1) in Hr;
        [|rewrite B1; discriminate|lia].
      rewrite B1 in Hr. injection Hr as <-.
      change (animations (with_clock T0 D0 s1)) with (animations s1) in Ha'.
      rewrite Ha1 in Ha'. injection Ha' as <-.
      simpl in Hle, Hnn. lia. }
  (* the second call, seen on the clock of [s0] *)
  pose proof (Update_inert_writes p f2 (UpdateClock d2 s1) a1 s2
                Hrun Ha1 H2) as (fr2 & acc2 & Hs2).
  assert (snd (Update_loop run f2 p
                 (store_animation p (add_time d2 a1) (with_clock T0 D0 s1)))
            = Ok (with_clock T0 D0 s2)) as B2.
  { unfold Update in H2.
    change (animations (UpdateClock d2 s1)) with (animations s1) in H2.
    rewrite Ha1 in H2. change (paused a1) with (paused a) in H2.
    rewrite Hp in H2.
    change (DeltaMillis (UpdateClock d2 s1)) with d2 in H2.
    change (accumMillis a1) with acc1 in H2.
    rewrite wrap64_id in H2
      by (unfold in_int64, int64_min, int64_max in *; lia).
    apply (Update_loop_with_clock p T0 D0) in H2; [|exact Hrun].
    exact H2. }
  (* both at once *)
  pose proof (Update_loop_add tbl p d2 Hfit Hpos Hrun Hd2 f1 L1
                (add_time d1 a) (with_clock T0 D0 s1) a1 HplayL1) as Hadd.
  specialize (Hadd ltac:(simpl; lia) B1 Ha1 f2 _ B2).
  unfold L1 in Hadd. rewrite store_animation_twice in Hadd.
  exists (with_clock (wrap64 (T0 + (d1 + d2))) (d1 + d2)
            (with_clock T0 D0 s2)).
  split; [|split; [reflexivity|split; [reflexivity|split; [reflexivity|]]]].
  - unfold Update.
    change (animations (UpdateClock (d1 + d2) s0)) with (animations s0).
    rewrite Ha, Hp.
    change (DeltaMillis (UpdateClock (d1 + d2) s0)) with (d1 + d2).
    rewrite wrap64_id by (unfold in_int64, int64_min, int64_max in *; lia).
    apply (Update_loop_with_clock p (wrap64 (T0 + (d1 + d2))) (d1 + d2))
      in Hadd; [|exact Hrun].
    replace (store_animation p
               (set_accumMillis (accumMillis a + (d1 + d2)) a)
               (UpdateClock (d1 + d2) s0))
      with (with_clock (wrap64 (T0 + (d1 + d2))) (d1 + d2)
              (store_animation p (add_time d2 (add_time d1 a)) s0));
      [exact Hadd|].
    assert (add_time d2 (add_time d1 a)
              = set_accumMillis (accumMillis a + (d1 + d2)) a) as ->
      by (unfold add_time, set_accumMillis; simpl; f_equal; lia).
    reflexivity.
  - rewrite Hs2, Hs1. simpl. fold T0.
    rewrite wrap64_add_wrap64. f_equal. lia.
Qed.

Lemma Update_fuel_mono p fuel fuel' s :
  snd (Update run fuel p s) ≠ Timeout → (fuel ≤ fuel')%nat →
  Update run fuel' p s = Update run fuel p s.
Proof.
  unfold Update. destruct (animations s !! p) as [a|]; [|reflexivity].
  destruct (paused a); [reflexivity|]. apply Update_loop_fuel_mono.
Qed.

(** With positive durations and callbacks that leave the store alone, a call
    of [Update] on a running animation returns, and leaves it at rest. *)
Lemma Update_returns_inert tbl p s a d :
  lengths_fit tbl → durations_positive tbl →
  (∀ c q s0, run c q s0 = Ok s0) →
  plays s p tbl a → paused a = false →
  0 <= accumMillis a → 0 <= d → accumMillis a + d <= int64_max →
  ∀ fuel, accumMillis a + d < Z.of_nat fuel →
    ∃ s' a',
      snd (Update run fuel p (UpdateClock d s)) = Ok s' ∧
      plays s' p tbl a' ∧ paused a' = false ∧
      0 <= accumMillis a' <= accumMillis a + d ∧ at_rest p s'.
Proof.
  intros Hfit Hpos Hrun Hplay Hp Hacc Hd Hsum fuel Hfuel.
  pose proof Hplay as (Ha & Htbl & Hb).
  set (a1 := set_accumMillis (wrap64 (accumMillis a + d)) a).
  set (s1 := store_animation p a1 (UpdateClock d s)).
  assert (Update run fuel p (UpdateClock d s) = Update_loop run fuel p s1)
    as HU.
  { unfold Update.
    change (animations (UpdateClock d s)) with (animations s).
    now rewrite Ha, Hp. }
  assert (accumMillis a1 = accumMillis a + d) as Hacc1.
  { unfold a1. simpl. apply wrap64_id.
    unfold in_int64, int64_min, int64_max in *. lia. }
  assert (plays s1 p tbl a1) as Hplay1.
  { split; [apply lookup_store_animation|]. split; assumption. }
  destruct (Update_loop_returns run tbl p Hfit Hpos
              (inert_well_behaved p tbl Hrun) fuel s1 a1 Hplay1)
    as (s' & a' & fr & Hr & Hplay' & Hfr & Hle & Hle2 & Hnn); [lia..|].
  exists s', a'. rewrite HU. split; [exact Hr|]. split; [exact Hplay'|].
  split.
  { assert (animations (UpdateClock d s) !! p = Some a) as Ha0 by exact Ha.
    destruct (Update_inert_writes p fuel (UpdateClock d s) a s' Hrun Ha0)
      as (frame & accum & Hs'); [now rewrite HU|].
    destruct Hplay' as (Ha' & _).
    rewrite Hs', lookup_store_animation in Ha'. injection Ha' as <-.
    exact Hp. }
  split; [lia|].
  exists a', fr. destruct Hplay' as (Ha' & _).
  split; [exact Ha'|]. split; [exact Hfr | exact Hle].
Qed.

(** X9. Positive durations, callbacks that leave the store alone, a running
    animation and no overflow: two [Update]s after [d1] and then [d2]
    milliseconds both return and leave the animations, the tables and the
    total time exactly as one [Update] after [d1 + d2] milliseconds does,
    at rest on a frame. The frame shown does not depend on how the elapsed
    time is cut into ticks. *)
Theorem Update_adds_up tbl p s0 a d1 d2 :
  lengths_fit tbl → durations_positive tbl →
  (∀ c q s, run c q s = Ok s) →
  plays s0 p tbl a → paused a = false →
  0 <= accumMillis a → 0 <= d1 → 0 <= d2 →
  accumMillis a + d1 + d2 <= int64_max →
  ∀ f1 f2 f12,
    accumMillis a + d1 + d2 < Z.of_nat f1 →
    accumMillis a + d1 + d2 < Z.of_nat f2 →
    accumMillis a + d1 + d2 < Z.of_nat f12 →
    ∃ s1 s2 s12,
      snd (Update run f1 p (UpdateClock d1 s0)) = Ok s1 ∧
      snd (Update run f2 p (UpdateClock d2 s1)) = Ok s2 ∧
      snd (Update run f12 p (UpdateClock (d1 + d2) s0)) = Ok s12 ∧
      animations s12 = animations s2 ∧
      frameTables s12 = frameTables s2 ∧
      callbackTables s12 = callbackTables s2 ∧
      TotalMillis s12 = TotalMillis s2 ∧
      at_rest p s12.
Proof.
  intros Hfit Hpos Hrun Hplay Hp Hacc Hd1 Hd2 Hsum f1 f2 f12 Hf1 Hf2 Hf12.
  destruct (Update_returns_inert tbl p s0 a d1 Hfit Hpos Hrun Hplay Hp Hacc
              Hd1 ltac:(lia) f1 ltac:(lia))
    as (s1 & a1 & H1 & Hplay1 & Hp1 & Hacc1 & _).
  destruct (Update_returns_inert tbl p s1 a1 d2 Hfit Hpos Hrun Hplay1 Hp1
              ltac:(lia) Hd2 ltac:(lia) f2 ltac:(lia))
    as (s2 & a2 & H2 & _).
  destruct (Update_returns_inert tbl p s0 a (d1 + d2) Hfit Hpos Hrun Hplay Hp
              Hacc ltac:(lia) ltac:(lia) f12 ltac:(lia))
    as (s12 & a12 & H12 & _ & _ & _ & Hrest).
  destruct (Update_adds_up_returned tbl p s0 a d1 d2 Hfit Hpos Hrun Hplay Hp
              Hacc Hd1 Hd2 Hsum f1 f2 s1 s2 H1 H2)
    as (s12' & H12' & Hanims & Hframes & Hcbs & Htotal).
  assert (s12' = s12) as ->.
  { destruct (le_ge_dec f12 (f1 + f2)) as [Hle|Hge].
    - rewrite (Update_fuel_mono p f12 (f1 + f2)) in H12';
        [|rewrite H12; discriminate|exact Hle].
      rewrite H12 in H12'. now injection H12'.
    - rewrite (Update_fuel_mono p (f1 + f2) f12) in H12;
        [|rewrite H12'; discriminate|exact Hge].
      rewrite H12' in H12. now injection H12. }
  exists s1, s2, s12. repeat (split; [assumption|]). exact Hrest.
Qed.

End Controls.

Lemma Toggle_twice_restores_witness :
  ∃ s1, Toggle 1 Examples.looping = Ok s1 ∧
        Toggle 1 s1 = Ok Examples.looping.
Proof.
  destruct (Toggle_twice_restores 1 Examples.looping
              (Examples.playing "" 0 0) eq_refl)
    as ((s1 & H1 & H2 & _) & _).
  exists s1. split; assumption.
Defined.

Lemma Pause_stops_the_clock_witness :
  ∃ s1, Pause 1 Examples.looping = Ok s1 ∧
        Update run_nothing 5 1 (UpdateClock 1000 s1)
          = ([], Ok (UpdateClock 1000 s1)).
Proof.
  destruct (Pause_stops_the_clock run_nothing 1 Examples.looping
              (Examples.playing "" 0 0) eq_refl) as (s1 & H1 & H2 & _).
  exists s1. split; [exact H1 | apply H2].
Defined.

Lemma SetTag_resets_index_witness :
  ∃ s1 s2,
    SetTag "x" 1 Examples.resting = Ok s1 ∧ SetTag "" 1 s1 = Ok s2 ∧
    animations s2 !! 1%positive = Some (Examples.playing "" 0 5).
Proof.
  destruct (SetTag_resets_index 1 Examples.resting (Examples.playing "" 1 5)
              "x" eq_refl) as (_ & s1 & H1 & _ & Hback).
  destruct Hback as (_ & s2 & H2 & Ha2); [discriminate|].
  exists s1, s2. split; [exact H1|]. split; [exact H2 | exact Ha2].
Defined.

Lemma SetTag_is_not_checked_witness :
  ∃ s1, SetTag "x" 1 Examples.resting = Ok s1 ∧
        ∀ fuel, Update run_nothing (S fuel) 1 s1 = ([], Panic).
Proof.
  destruct (SetTag_is_not_checked run_nothing 1 Examples.resting
              (Examples.playing "" 1 5) "x" eq_refl eq_refl)
    as (s1 & H1 & Hrun & _).
  exists s1. split; [exact H1 | apply Hrun; reflexivity].
Defined.

Lemma OnEnd_registers_witness :
  ∃ s1, OnEnd "" (Some 3%nat) 1 Examples.looping = Ok s1 ∧
        callback_at s1 (Examples.playing "" 0 0) "" = Some 3%nat.
Proof.
  destruct (OnEnd_registers 1 Examples.looping (Examples.playing "" 0 0)
              eq_refl) as (_ & Hreg).
  destruct (Hreg 1%positive {[ "" := Some 7%nat ]} eq_refl eq_refl ""
              (Some 3%nat)) as (s1 & H1 & H2 & _).
  exists s1. split; assumption.
Defined.

Lemma OnEnd_nil_disables_witness :
  (∃ s2 rest,
     fst (Update (run_SetTag Examples.to_b) 20 1 Examples.about_to_end)
       = Advanced s2 :: Called 7%nat s2 :: rest) ∧
  ∃ s1, OnEnd "" None 1 Examples.about_to_end = Ok s1 ∧
        calls (fst (Update (run_SetTag Examples.to_b) 20 1 s1)) = 0%nat.
Proof.
  destruct (OnEnd_nil_disables (run_SetTag Examples.to_b) 1
              Examples.about_to_end (Examples.playing "" 2 0) 1%positive
              {[ "" := Some 7%nat ]} eq_refl eq_refl eq_refl)
    as (Hon & s1 & H1 & H2).
  split.
  - apply (Hon Examples.three_frames 7%nat (Examples.ms 10) 19%nat).
    + evaluate.
    + split; [reflexivity|]. split; [reflexivity|]. evaluate.
    + reflexivity.
    + reflexivity.
    + reflexivity.
    + reflexivity.
    + vm_compute. reflexivity.
  - exists s1. split; [exact H1 | apply H2].
Defined.

Lemma Update_writes_index_and_time_only_witness :
  ∃ frame accum,
    Examples.player Examples.three_frames {[ "" := Some 7%nat ]} "" 0 5 65
      = store_animation 1
          (mkAnimation false (Some 1%positive) "" frame accum
             (Some 1%positive) None)
          Examples.looping ∧
    ∃ fr,
      index (frames_at Examples.looping (Examples.playing "" 0 0) "") frame
        = Some fr ∧
      accum <= DurationMillis fr.
Proof.
  destruct (Update_writes_index_and_time_only run_nothing 1 20
              Examples.looping (Examples.playing "" 0 0)
              (Examples.player Examples.three_frames {[ "" := Some 7%nat ]}
                 "" 0 5 65))
    as (frame & accum & Hs' & Hrest).
  - reflexivity.
  - reflexivity.
  - vm_compute. reflexivity.
  - exists frame, accum. split; [exact Hs'|]. exact (Hrest eq_refl).
Defined.

Lemma Update_uniform_position_witness :
  snd (Update run_nothing 66 1 Examples.looping)
    = Ok (store_animation 1
            (mkAnimation false (Some 1%positive) "" 0 5 (Some 1%positive)
               None)
            Examples.looping).
Proof.
  apply (Update_uniform_position run_nothing Examples.three_frames 1 10
           Examples.looping (Examples.playing "" 0 0)
           [Examples.ms 10; Examples.ms 10; Examples.ms 10]).
  - evaluate.
  - lia.
  - reflexivity.
  - apply looping_plays.
  - reflexivity.
  - reflexivity.
  - repeat constructor.
  - simpl. lia.
  - simpl. lia.
  - vm_compute. discriminate.
  - simpl. lia.
Defined.

Lemma idle_plays :
  plays Examples.idle 1 Examples.three_frames (Examples.playing "" 0 0).
Proof. split; [reflexivity|]. split; [reflexivity|]. evaluate. Qed.

Lemma Update_adds_up_witness :
  ∃ s12,
    snd (Update run_nothing 70 1 (UpdateClock 65 Examples.idle)) = Ok s12 ∧
    animations s12 = animations (Examples.clocked 0 5 65 40) ∧
    TotalMillis s12 = 65 ∧
    at_rest 1 s12.
Proof.
  destruct (Update_adds_up run_nothing Examples.three_frames 1 Examples.idle
              (Examples.playing "" 0 0) 25 40)
    with (f1 := 70%nat) (f2 := 70%nat) (f12 := 70%nat)
    as (s1 & s2 & s12 & H1 & H2 & H12 & Hanims & _ & _ & Htotal & Hrest).
  - evaluate.
  - evaluate.
  - reflexivity.
  - apply idle_plays.
  - reflexivity.
  - simpl. lia.
  - lia.
  - lia.
  - vm_compute. discriminate.
  - simpl. lia.
  - simpl. lia.
  - simpl. lia.
  - assert (s1 = Examples.clocked 2 5 25 25) as Hs1.
    { vm_compute in H1. injection H1 as <-. vm_compute. reflexivity. }
    rewrite Hs1 in H2.
    assert (s2 = Examples.clocked 0 5 65 40) as Hs2.
    { vm_compute in H2. injection H2 as <-. vm_compute. reflexivity. }
    exists s12. split; [exact H12|]. rewrite Hs2 in Hanims, Htotal.
    split; [exact Hanims|]. split; [exact Htotal | exact Hrest].
Defined.

End PlaybackFacts.
